(** * mixed_load: a synthetic CPU / memory load generator

    Shallow embedding of [src/mixed_load.cpp]: the per-thread routine
    [x86_task] (integer phase, floating-point phase, memory phase, pause,
    forever) and the harness [main] (thread count from [argv] or from the
    host, fan-out, join).

    Conventions.
    - [unsigned int] is a [Z] in [[0, 2^32)]; every operation writes its
      reduction modulo [2^32] out.
    - [int] is a [Z] in [[-2^31, 2^31)]; arithmetic is two's complement
      (the behaviour of the x86 target the program is written for).
    - [float] is IEEE-754 binary32 with round-to-nearest-even, taken from
      the Standard Library's [SpecFloat] at precision 24 / emax 128.
    - [volatile] variables are ordinary cells: under normal operation nothing
      but the thread itself writes them.
    - The array behind [new int[ARRAY_SIZE]] is a [list Z]; its initial
      contents are indeterminate, hence universally quantified. *)

From Stdlib Require Import ZArith Lia Bool List Ascii String.
From Stdlib Require Import Floats.SpecFloat.
From stdpp Require Import base list strings.

Local Open Scope Z_scope.

(** ** Machine integers *)

Module UInt32.
Definition width : Z := 32.
Definition modulus : Z := 2 ^ width.
Definition wrap (v : Z) : Z := v mod modulus.

Definition add (u v : Z) : Z := wrap (u + v).
Definition sub (u v : Z) : Z := wrap (u - v).
Definition mul (u v : Z) : Z := wrap (u * v).
Definition xor (u v : Z) : Z := Z.lxor u v.
Definition or (u v : Z) : Z := Z.lor u v.
Definition shl (u n : Z) : Z := wrap (Z.shiftl u n).
Definition shr (u n : Z) : Z := Z.shiftr u n.

Definition in_range (v : Z) : Prop := 0 <= v < modulus.
End UInt32.

Module Int32.
Definition min_int : Z := - 2 ^ 31.
Definition max_int : Z := 2 ^ 31 - 1.
Definition wrap (v : Z) : Z := (v + 2 ^ 31) mod 2 ^ 32 - 2 ^ 31.

Definition add (u v : Z) : Z := wrap (u + v).
Definition mul (u v : Z) : Z := wrap (u * v).
(** C++ [%] truncates towards zero. *)
Definition rem (u v : Z) : Z := Z.rem u v.

Definition in_range (v : Z) : Prop := min_int <= v <= max_int.
End Int32.

(** ** IEEE-754 binary32 *)

Module F32.
Definition prec : Z := 24.
Definition emax : Z := 128.

Definition float : Type := spec_float.

Definition mul (u v : float) : float := SFmul prec emax u v.
Definition add (u v : float) : float := SFadd prec emax u v.
Definition div (u v : float) : float := SFdiv prec emax u v.
(** [u > v]; false as soon as one side is a NaN. *)
Definition gt (u v : float) : bool := SFltb v u.

Definition of_Z (n : Z) : float := binary_normalize prec emax n 0 false.
(** The literal [n/100] written with an [f] suffix: the decimal fraction
    rounded to the nearest binary32 value. *)
Definition of_hundredths (n : Z) : float := div (of_Z n) (of_Z 100).

Definition zero : float := S754_zero false.

End F32.

(** ** Counted loops

    [for (int i = 0; i < n; ++i) body]: the body runs for [i = 0, 1, ...,
    n-1] in this order, and not at all when [n <= 0]. *)

Definition for_loop {A : Type} (n : Z) (body : Z -> A -> A) (s : A) : A :=
  foldl (fun acc i => body i acc) s (seqZ 0 n).

(** ** The per-thread routine [x86_task] *)

Module x86_task.

(** *** Integer phase (lines 19-28) *)

(** Line 8: [volatile unsigned int a = 1, b = 2, c = 3, d = 4;] *)
Definition a : Z := 1.
Definition b : Z := 2.
Definition c : Z := 3.
Definition d : Z := 4.

(** Lines 19 and 31: the bound of both inner loops. *)
Definition ITERATIONS : Z := 1000000.

(** Line 23: [(result << 3) | (result >> 29)]. *)
Definition rotate (result : Z) : Z :=
  UInt32.or (UInt32.shl result 3) (UInt32.shr result 29).

(** Lines 20-23, the four updates of [result] in one step. *)
Definition int_arith (result : Z) : Z :=
  let result := UInt32.add result (UInt32.mul a b) in
  let result := UInt32.sub result c in
  let result := UInt32.xor result d in
  rotate result.

(** Lines 25-27: [if (result == 0) result = a + b + c + d;] *)
Definition int_seed_sum : Z := UInt32.add (UInt32.add (UInt32.add a b) c) d.

Definition int_reset (result : Z) : Z :=
  if result =? 0 then int_seed_sum else result.

(** One iteration of the loop body of line 19. *)
Definition int_step (result : Z) : Z := int_reset (int_arith result).

(** [result] at the beginning of step [k] (counting from 0), the loop
    having been entered with [result = r0]. *)
Fixpoint int_at (k : nat) (r0 : Z) : Z :=
  match k with
  | O => r0
  | S k' => int_step (int_at k' r0)
  end.

Definition int_phase (result : Z) : Z :=
  for_loop ITERATIONS (fun _ => int_step) result.

(** *** Floating-point phase (lines 31-39) *)

(** Line 11: [float x = 1.23f, y = 4.56f, z = 7.89f;] *)
Definition x : F32.float := F32.of_hundredths 123.
Definition y : F32.float := F32.of_hundredths 456.
Definition z : F32.float := F32.of_hundredths 789.

(** Line 36: the literal [100.0f]. *)
Definition threshold : F32.float := F32.of_Z 100.

(** Lines 32-34. Line 32 is a plain assignment, [f_result = x * y]: the
    value [f_result] held on entry is overwritten without being read. *)
Definition float_arith (f_result : F32.float) : F32.float :=
  let f_result := F32.mul x y in
  let f_result := F32.add f_result z in
  F32.div f_result y.

(** Lines 36-38: [if (f_result > 100.0f) f_result = x + y + z;] *)
Definition float_seed_sum : F32.float := F32.add (F32.add x y) z.

Definition float_reset (f_result : F32.float) : F32.float :=
  if F32.gt f_result threshold then float_seed_sum else f_result.

(** One iteration of the loop body of line 31. *)
Definition float_step (f_result : F32.float) : F32.float :=
  float_reset (float_arith f_result).

Fixpoint float_at (k : nat) (f0 : F32.float) : F32.float :=
  match k with
  | O => f0
  | S k' => float_step (float_at k' f0)
  end.

Definition float_phase (f_result : F32.float) : F32.float :=
  for_loop ITERATIONS (fun _ => float_step) f_result.

(** *** Memory phase (lines 42-47) *)

(** Line 14: [const int ARRAY_SIZE = 1024 * 1024;] *)
Definition ARRAY_SIZE : Z := 1024 * 1024.

(** [array[i]] as an rvalue and [array[i] = v]. All accesses of the
    program are in bounds; the default is never observed. *)
Definition load (array : list Z) (i : Z) : Z := default 0 (array !! Z.to_nat i).
Definition store (array : list Z) (i v : Z) : list Z := <[Z.to_nat i := v]> array.

(** Line 43: [array[i] = i * 2;] *)
Definition write_body (i : Z) (array : list Z) : list Z :=
  store array i (Int32.mul i 2).

(** Line 46: [array[i] += array[(i + 1) % ARRAY_SIZE];] for a buffer of
    [size] elements. *)
Definition read_body (size : Z) (i : Z) (array : list Z) : list Z :=
  store array i
    (Int32.add (load array i) (load array (Int32.rem (Int32.add i 1) size))).

Definition write_pass (size : Z) (array : list Z) : list Z :=
  for_loop size write_body array.

Definition read_pass (size : Z) (array : list Z) : list Z :=
  for_loop size (read_body size) array.

Definition mem_phase (size : Z) (array : list Z) : list Z :=
  read_pass size (write_pass size array).

(** *** One round, as a function of the thread-local variables *)

Record locals := Locals {
  result : Z;
  f_result : F32.float;
  array : list Z
}.

Definition round (v : locals) : locals :=
  {| result := int_phase (result v);
     f_result := float_phase (f_result v);
     array := mem_phase ARRAY_SIZE (array v) |}.

(** *** Control flow of the routine (lines 17-54)

    One transition per loop test: either one execution of the loop body
    followed by [++i], or the exit to the statement after the loop. *)

Inductive label :=
| at_while        (* line 17 *)
| at_int_for      (* line 19 *)
| at_float_for    (* line 31 *)
| at_write_for    (* line 42 *)
| at_read_for     (* line 45 *)
| at_sleep        (* line 50 *)
| at_delete       (* line 53 *)
| returned.       (* line 54 *)

Record state := State {
  pc : label;
  i : Z;
  vars : locals
}.

(** Line 17: the condition of [while (true)]. *)
Definition while_cond (s : state) : bool := true.

Definition goto (l : label) (s : state) : state :=
  {| pc := l; i := 0; vars := vars s |}.

Definition iterate (f : locals -> locals) (s : state) : state :=
  {| pc := pc s; i := Int32.add (i s) 1; vars := f (vars s) |}.

Definition step (s : state) : option state :=
  match pc s with
  | at_while =>
      if while_cond s then Some (goto at_int_for s) else Some (goto at_delete s)
  | at_int_for =>
      if i s <? ITERATIONS
      then Some (iterate (fun v => {| result := int_step (result v);
                                      f_result := f_result v;
                                      array := array v |}) s)
      else Some (goto at_float_for s)
  | at_float_for =>
      if i s <? ITERATIONS
      then Some (iterate (fun v => {| result := result v;
                                      f_result := float_step (f_result v);
                                      array := array v |}) s)
      else Some (goto at_write_for s)
  | at_write_for =>
      if i s <? ARRAY_SIZE
      then Some (iterate (fun v => {| result := result v;
                                      f_result := f_result v;
                                      array := write_body (i s) (array v) |}) s)
      else Some (goto at_read_for s)
  | at_read_for =>
      if i s <? ARRAY_SIZE
      then Some (iterate (fun v => {| result := result v;
                                      f_result := f_result v;
                                      array := read_body ARRAY_SIZE (i s) (array v) |}) s)
      else Some (goto at_sleep s)
  | at_sleep => Some (goto at_while s)
  | at_delete => Some (goto returned s)
  | returned => None
  end.

Fixpoint run (n : nat) (s : state) : option state :=
  match n with
  | O => Some s
  | S n' => match step s with
            | Some s' => run n' s'
            | None => None
            end
  end.

(** The state on reaching line 17 for the first time (lines 8-15),
    [new int[ARRAY_SIZE]] having returned a block with contents [array0]. *)
Definition entry (array0 : list Z) : state :=
  {| pc := at_while; i := 0;
     vars := {| result := 0; f_result := F32.zero; array := array0 |} |}.

(** Transitions taken by one full round, from line 17 back to line 17. *)
Definition round_length : nat :=
  Z.to_nat (2 * ITERATIONS + 2 * ARRAY_SIZE + 6).

End x86_task.

(** ** The harness [main] (lines 56-75) *)

Module std.

(** The exceptions [std::stoi] can raise. *)
Inductive exception := invalid_argument | out_of_range.

Definition code (ch : ascii) : Z := Z.of_N (N_of_ascii ch).

(** [isspace] and [isdigit] of the "C" locale. *)
Definition isspace (ch : ascii) : bool :=
  (code ch =? 32) || ((9 <=? code ch) && (code ch <=? 13)).

Definition isdigit (ch : ascii) : bool :=
  (48 <=? code ch) && (code ch <=? 57).

Definition digit_value (ch : ascii) : Z := code ch - 48.

Fixpoint skip_spaces (s : string) : string :=
  match s with
  | String ch s' => if isspace ch then skip_spaces s' else s
  | EmptyString => s
  end.

Definition take_sign (s : string) : bool * string :=
  match s with
  | String "-"%char s' => (true, s')
  | String "+"%char s' => (false, s')
  | _ => (false, s)
  end.

(** [acc] is [None] until a first digit has been consumed. *)
Fixpoint take_digits (s : string) (acc : option Z) : option Z :=
  match s with
  | String ch s' =>
      if isdigit ch
      then take_digits s' (Some (10 * default 0 acc + digit_value ch))
      else acc
  | EmptyString => acc
  end.

(** [std::stoi(str)] with the default base 10, as the C++ standard library
    specifies it through [strtol]: leading white space is skipped, one
    optional sign is taken, then the longest run of decimal digits;
    whatever follows is ignored. No digit at all raises
    [std::invalid_argument]; a value that does not fit [int] raises
    [std::out_of_range]. *)
Definition stoi (str : string) : exception + Z :=
  let '(negative, digits) := take_sign (skip_spaces str) in
  match take_digits digits None with
  | None => inl invalid_argument
  | Some magnitude =>
      let value := if negative then - magnitude else magnitude in
      if (Int32.min_int <=? value) && (value <=? Int32.max_int)
      then inr value
      else inl out_of_range
  end.

(** Shapes of strings, for stating what [stoi] accepts. *)

Fixpoint string_forall (p : ascii -> bool) (s : string) : bool :=
  match s with
  | String ch s' => p ch && string_forall p s'
  | EmptyString => true
  end.

Definition starts_with (p : ascii -> bool) (s : string) : bool :=
  match s with
  | String ch _ => p ch
  | EmptyString => false
  end.

(** The number a run of decimal digits denotes, continuing from [acc]. *)
Fixpoint decimal (acc : Z) (ds : string) : Z :=
  match ds with
  | String ch ds' => decimal (10 * acc + digit_value ch) ds'
  | EmptyString => acc
  end.

End std.

(** What the process does once [main] has been entered. *)
Inductive outcome :=
| Exit (status : Z)              (* [main] returns [status] *)
| Terminate (e : std.exception)  (* uncaught exception: [std::terminate], abort *)
| Blocked.                       (* [main] waits in [join] for a thread that never returns *)

(** A [std::thread] running [x86_task]. *)
Inductive thread := Thread_x86_task.

Record execution := Execution {
  launched : list thread;
  ending : outcome
}.

(** Lines 57-61: the thread count, [hardware_concurrency] being the value
    the host reports (an [unsigned int], converted to [int]). *)
Definition num_threads (hardware_concurrency : Z) (argv : list string) : std.exception + Z :=
  let argc := Z.of_nat (length argv) in
  let num_threads := Int32.wrap hardware_concurrency in
  if 1 <? argc
  then std.stoi (default EmptyString (argv !! 1%nat))
  else inr num_threads.

(** Lines 70-72. [x86_task] never returns, so the first [join] never does. *)
Definition join_all (threads : list thread) : outcome :=
  match threads with
  | [] => Exit 0
  | _ :: _ => Blocked
  end.

(** Lines 56-74. An exception of [std::stoi] is not caught, so it ends the
    process before the loop of line 64. Creating a thread is taken to
    succeed (the host has the resources for [num_threads] threads). *)
Definition main (hardware_concurrency : Z) (argv : list string) : execution :=
  match num_threads hardware_concurrency argv with
  | inl e => {| launched := []; ending := Terminate e |}
  | inr num_threads =>
      let threads := for_loop num_threads (fun _ threads => threads ++ [Thread_x86_task]) [] in
      {| launched := threads; ending := join_all threads |}
  end.

(** A status other than 0 as seen by the parent process: a non-zero return
    value of [main], or death by [SIGABRT]. *)
Definition exits_nonzero (o : outcome) : bool :=
  match o with
  | Exit status => negb (status =? 0)
  | Terminate _ => true
  | Blocked => false
  end.

(** ** Invariants used in the proofs *)

Section Invariants.
Import x86_task.

(** The state of the buffer while the first pass runs. *)
Definition written (size : Z) (arr0 : list Z) (k : Z) (arr : list Z) : Prop :=
  length arr = length arr0 /\
  (forall j, 0 <= j < k -> load arr j = Int32.mul j 2) /\
  (forall j, k <= j -> load arr j = load arr0 j).

(** What element [j] holds once the second pass has gone over it, in
    the arithmetic of [int]. *)
Definition accumulated (size j : Z) : Z :=
  if j + 1 <? size
  then Int32.add (Int32.mul j 2) (Int32.mul (j + 1) 2)
  else if size =? 1
       then Int32.add (Int32.mul 0 2) (Int32.mul 0 2)
       else Int32.add (Int32.mul j 2) (Int32.add (Int32.mul 0 2) (Int32.mul 1 2)).

Definition accumulating (size : Z) (k : Z) (arr : list Z) : Prop :=
  length arr = Z.to_nat size /\
  (forall j, 0 <= j < k -> load arr j = accumulated size j) /\
  (forall j, k <= j < size -> load arr j = Int32.mul j 2).

(** The routine has neither reached line 53 nor returned. *)
Definition running (s : state) : Prop := pc s <> at_delete /\ pc s <> returned.

(** A counted loop at label [l] with bound [bound] whose iteration at
    counter [j] applies [body j] to the locals. *)
Definition counted_loop (l : label) (bound : Z) (body : Z -> locals -> locals) : Prop :=
  forall s, pc s = l -> 0 <= i s < bound ->
    step s = Some {| pc := l; i := Int32.add (i s) 1; vars := body (i s) (vars s) |}.

(** The bound of the loop counter at each label; outside the loops the
    counter is 0. *)
Definition counter_bound (l : label) : Z :=
  match l with
  | at_int_for | at_float_for => ITERATIONS
  | at_write_for | at_read_for => ARRAY_SIZE
  | _ => 0
  end.

(** What holds of every state the routine goes through, for a buffer
    [array0] handed out by [new]. *)
Definition safe (array0 : list Z) (s : state) : Prop :=
  running s /\
  length (array (vars s)) = length array0 /\
  UInt32.in_range (result (vars s)) /\
  (f_result (vars s) = F32.zero \/
   f_result (vars s) = S754_finite false 12416244 (-22)) /\
  0 <= i s <= counter_bound (pc s).

End Invariants.

(** * Properties *)

Section UInt32Facts.

Lemma modulus_val : UInt32.modulus = 4294967296.
Proof. reflexivity. Qed.

Lemma wrap_range v : UInt32.in_range (UInt32.wrap v).
Proof.
  unfold UInt32.in_range, UInt32.wrap. rewrite modulus_val.
  apply Z.mod_pos_bound. lia.
Qed.

Lemma wrap_small v : UInt32.in_range v -> UInt32.wrap v = v.
Proof.
  unfold UInt32.in_range, UInt32.wrap. intros Hv. now apply Z.mod_small.
Qed.

End UInt32Facts.

Section IntegerPhase.
Import x86_task.

Lemma testbit_above (v k : Z) :
  UInt32.in_range v -> 32 <= k -> Z.testbit v k = false.
Proof.
  intros Hv Hk. rewrite <- (wrap_small v Hv). unfold UInt32.wrap, UInt32.modulus, UInt32.width.
  apply Z.mod_pow2_bits_high. lia.
Qed.

Lemma rotate_arith (v : Z) :
  rotate v = Z.lor ((v * 2 ^ 3) mod 2 ^ 32) (v / 2 ^ 29).
Proof.
  unfold rotate, UInt32.or, UInt32.shl, UInt32.shr, UInt32.wrap, UInt32.modulus, UInt32.width.
  rewrite Z.shiftl_mul_pow2, Z.shiftr_div_pow2 by lia. reflexivity.
Qed.

Lemma rotate_testbit (v k : Z) :
  UInt32.in_range v -> 0 <= k < 32 ->
  Z.testbit (rotate v) k = Z.testbit v ((k + 29) mod 32).
Proof.
  intros Hv Hk.
  unfold rotate, UInt32.or, UInt32.shl, UInt32.shr, UInt32.wrap, UInt32.modulus, UInt32.width.
  rewrite Z.lor_spec, Z.mod_pow2_bits_low, Z.shiftl_spec, Z.shiftr_spec by lia.
  destruct (Z_lt_ge_dec k 3) as [Hlow | Hhigh].
  - rewrite (Z.testbit_neg_r v (k - 3)) by lia.
    rewrite Z.mod_small by lia. reflexivity.
  - rewrite (testbit_above v (k + 29)) by (auto; lia).
    rewrite orb_false_r. f_equal.
    replace (k + 29) with ((k - 3) + 1 * 32) by lia.
    rewrite Z.mod_add by lia. rewrite Z.mod_small by lia. reflexivity.
Qed.

Lemma rotate_range (v : Z) : UInt32.in_range v -> UInt32.in_range (rotate v).
Proof.
  intros Hv. rewrite rotate_arith. unfold UInt32.in_range. rewrite modulus_val.
  assert (H1 : 0 <= (v * 2 ^ 3) mod 2 ^ 32 < 2 ^ 32) by (apply Z.mod_pos_bound; lia).
  assert (H2 : 0 <= v / 2 ^ 29 < 2 ^ 32).
  { unfold UInt32.in_range in Hv. rewrite modulus_val in Hv. split.
    - apply Z.div_pos; lia.
    - apply Z.div_lt_upper_bound; lia. }
  split.
  - apply Z.lor_nonneg. lia.
  - change 4294967296 with (2 ^ 32).
    destruct (Z.eq_dec (Z.lor ((v * 2 ^ 3) mod 2 ^ 32) (v / 2 ^ 29)) 0) as [-> | Hne]; [lia |].
    apply Z.log2_lt_pow2.
    + assert (0 <= Z.lor ((v * 2 ^ 3) mod 2 ^ 32) (v / 2 ^ 29)) by (apply Z.lor_nonneg; lia). lia.
    + rewrite Z.log2_lor by lia.
      apply Z.max_lub_lt.
      * destruct (Z.eq_dec ((v * 2 ^ 3) mod 2 ^ 32) 0) as [-> | Hn]; [reflexivity |].
        apply Z.log2_lt_pow2; lia.
      * destruct (Z.eq_dec (v / 2 ^ 29) 0) as [-> | Hn]; [reflexivity |].
        apply Z.log2_lt_pow2; lia.
Qed.

Lemma rotate_disjoint (v : Z) :
  UInt32.in_range v -> Z.land ((v * 2 ^ 3) mod 2 ^ 32) (v / 2 ^ 29) = 0.
Proof.
  intros Hv. apply Z.bits_inj'. intros k Hk.
  rewrite Z.land_spec, Z.bits_0.
  destruct (Z_lt_ge_dec k 3) as [Hlow | Hhigh].
  - rewrite Z.mod_pow2_bits_low by lia.
    rewrite <- Z.shiftl_mul_pow2 by lia.
    rewrite Z.shiftl_spec by lia. rewrite Z.testbit_neg_r by lia. reflexivity.
  - rewrite <- Z.shiftr_div_pow2 by lia. rewrite Z.shiftr_spec by lia.
    rewrite (testbit_above v (k + 29)) by (auto; lia). apply andb_false_r.
Qed.

Lemma rotate_sum (v : Z) :
  UInt32.in_range v -> rotate v = (v * 8) mod 2 ^ 32 + v / 2 ^ 29.
Proof.
  intros Hv. rewrite rotate_arith.
  pose proof (rotate_disjoint v Hv) as Hd.
  rewrite <- Z.lxor_lor by exact Hd.
  rewrite <- Z.add_nocarry_lxor by exact Hd. reflexivity.
Qed.

Lemma rotate_zero_iff (v : Z) : UInt32.in_range v -> rotate v = 0 <-> v = 0.
Proof.
  intros Hv. split.
  - rewrite rotate_sum by exact Hv.
    unfold UInt32.in_range in Hv. rewrite modulus_val in Hv.
    change (2 ^ 32) with 4294967296. change (2 ^ 29) with 536870912.
    intros H.
    assert (Hq : 0 <= v / 536870912) by (apply Z.div_pos; lia).
    assert (Hm : 0 <= (v * 8) mod 4294967296) by (apply Z.mod_pos_bound; lia).
    assert (Hq0 : v / 536870912 = 0) by lia.
    assert (Hm0 : (v * 8) mod 4294967296 = 0) by lia.
    apply Z.div_small_iff in Hq0; [| lia].
    rewrite Z.mod_small in Hm0 by lia. lia.
  - intros ->. reflexivity.
Qed.

Lemma xor_range (u v : Z) :
  UInt32.in_range u -> UInt32.in_range v -> UInt32.in_range (UInt32.xor u v).
Proof.
  unfold UInt32.xor, UInt32.in_range. rewrite modulus_val.
  change 4294967296 with (2 ^ 32). intros Hu Hv.
  assert (Hnn : 0 <= Z.lxor u v) by (apply Z.lxor_nonneg; lia).
  split; [exact Hnn |].
  destruct (Z.eq_dec (Z.lxor u v) 0) as [-> | Hne]; [lia |].
  apply Z.log2_lt_pow2; [lia |].
  eapply Z.le_lt_trans; [apply Z.log2_lxor; lia |].
  apply Z.max_lub_lt.
  - destruct (Z.eq_dec u 0) as [-> | Hn]; [reflexivity |]. apply Z.log2_lt_pow2; lia.
  - destruct (Z.eq_dec v 0) as [-> | Hn]; [reflexivity |]. apply Z.log2_lt_pow2; lia.
Qed.

Lemma int_pre_rotate_range (r : Z) :
  UInt32.in_range (UInt32.xor (UInt32.sub (UInt32.add r (UInt32.mul a b)) c) d).
Proof.
  apply xor_range; [apply wrap_range |].
  unfold UInt32.in_range, d. rewrite modulus_val. lia.
Qed.

Lemma int_arith_range (r : Z) : UInt32.in_range (int_arith r).
Proof. unfold int_arith. apply rotate_range, int_pre_rotate_range. Qed.

Lemma int_step_range (r : Z) : UInt32.in_range (int_step r).
Proof.
  unfold int_step, int_reset.
  destruct (int_arith r =? 0) eqn:E.
  - unfold UInt32.in_range. rewrite modulus_val. change int_seed_sum with 10. lia.
  - apply int_arith_range.
Qed.

Lemma int_at_range (k : nat) (r0 : Z) : UInt32.in_range r0 -> UInt32.in_range (int_at k r0).
Proof.
  intros H0. induction k as [| k IH]; simpl; [exact H0 | apply int_step_range].
Qed.

(** The only accumulator value whose step ends in zero is 5. *)
Lemma int_arith_zero_iff (r : Z) : UInt32.in_range r -> int_arith r = 0 <-> r = 5.
Proof.
  intros Hr. split.
  - unfold int_arith. intros H.
    apply (proj1 (rotate_zero_iff _ (int_pre_rotate_range r))) in H.
    unfold UInt32.xor in H. apply Z.lxor_eq in H.
      unfold UInt32.sub, UInt32.add, UInt32.mul, UInt32.wrap, a, b, c, d in H.
      unfold UInt32.in_range in Hr. rewrite modulus_val in *.
      change (1 * 2) with 2 in H. rewrite (Z.mod_small 2) in H by lia.
      destruct (Z_lt_ge_dec (r + 2) 4294967296) as [Hs | Hb].
      * rewrite (Z.mod_small (r + 2)) in H by lia.
        destruct (Z_lt_ge_dec (r + 2 - 3) 0) as [Hneg | Hpos].
        -- replace (r + 2 - 3) with ((r + 2 - 3 + 4294967296) + (-1) * 4294967296) in H by lia.
           rewrite Z.mod_add in H by lia. rewrite Z.mod_small in H by lia. lia.
        -- rewrite Z.mod_small in H by lia. lia.
      * replace (r + 2) with ((r + 2 - 4294967296) + 1 * 4294967296) in H by lia.
        rewrite Z.mod_add in H by lia. rewrite (Z.mod_small (r + 2 - 4294967296)) in H by lia.
        replace (r + 2 - 4294967296 - 3) with ((r + 2 - 3) + (-1) * 4294967296) in H by lia.
        rewrite Z.mod_add in H by lia. rewrite Z.mod_small in H by lia. lia.
  - intros ->. reflexivity.
Qed.

End IntegerPhase.

(** ** Counted loops *)

Section ForLoop.
Context {A : Type}.
Implicit Types (body : Z -> A -> A) (s : A).

Lemma for_loop_nonpos n body s : n <= 0 -> for_loop n body s = s.
Proof. intros Hn. unfold for_loop. now rewrite seqZ_nil. Qed.

Lemma for_loop_succ n body s :
  0 <= n -> for_loop (n + 1) body s = body n (for_loop n body s).
Proof.
  intros Hn. unfold for_loop.
  rewrite seqZ_app by lia. rewrite foldl_app.
  rewrite (seqZ_cons (0 + n) 1) by lia.
  rewrite (seqZ_nil (Z.succ (0 + n))) by lia.
  reflexivity.
Qed.

(** A loop invariant rule: what holds on entry and is carried over by
    every iteration holds on exit. *)
Lemma for_loop_invariant (P : Z -> A -> Prop) n body s :
  0 <= n ->
  P 0 s ->
  (forall k t, 0 <= k < n -> P k t -> P (k + 1) (body k t)) ->
  P n (for_loop n body s).
Proof.
  intros Hn H0 Hstep.
  assert (Hall : forall k, 0 <= k -> k <= n -> P k (for_loop k body s)).
  { intros k Hk. pattern k. apply natlike_ind; [| | exact Hk].
    - intros _. now rewrite for_loop_nonpos by lia.
    - intros j Hj IH Hle. change (Z.succ j) with (j + 1) in *.
      rewrite for_loop_succ by lia. apply Hstep; [lia |]. apply IH. lia. }
  apply Hall; lia.
Qed.

(** A loop whose body ignores the counter is an iterated function. *)
Lemma for_loop_const (f : A -> A) (k : nat) s :
  for_loop (Z.of_nat k) (fun _ => f) s = Nat.iter k f s.
Proof.
  induction k as [| k IH].
  - now rewrite for_loop_nonpos by lia.
  - rewrite Nat2Z.inj_succ. change (Z.succ (Z.of_nat k)) with (Z.of_nat k + 1).
    rewrite for_loop_succ by lia. rewrite IH. reflexivity.
Qed.

Lemma for_loop_id n s : for_loop n (fun _ t => t) s = s.
Proof.
  unfold for_loop. generalize (seqZ 0 n). intros l.
  induction l as [| k l IH]; [reflexivity | exact IH].
Qed.

End ForLoop.

(** A projection that commutes with the body commutes with the loop. *)
Lemma for_loop_proj {A B : Type} (h : A -> B) (body : Z -> A -> A) (g : Z -> B -> B) n s :
  (forall k t, h (body k t) = g k (h t)) ->
  h (for_loop n body s) = for_loop n g (h s).
Proof.
  intros Hcomm. unfold for_loop. generalize (seqZ 0 n). intros l. revert s.
  induction l as [| k l IH]; intros s; [reflexivity |].
  cbn [foldl]. rewrite IH. now rewrite Hcomm.
Qed.

(** ** Memory phase *)

Section MemoryPhase.
Import x86_task.

Lemma length_store arr i v : length (store arr i v) = length arr.
Proof. unfold store. apply length_insert. Qed.

Lemma load_store_eq arr i v :
  (Z.to_nat i < length arr)%nat -> load (store arr i v) i = v.
Proof.
  intros Hi. unfold load, store. now rewrite list_lookup_insert_eq.
Qed.

Lemma load_store_ne arr i j v :
  0 <= i -> 0 <= j -> i <> j -> load (store arr i v) j = load arr j.
Proof.
  intros Hi Hj Hne. unfold load, store.
  rewrite list_lookup_insert_ne by lia. reflexivity.
Qed.

Lemma load_lookup arr i v :
  (Z.to_nat i < length arr)%nat -> load arr i = v -> arr !! Z.to_nat i = Some v.
Proof.
  intros Hi <-. unfold load.
  destruct (lookup_lt_is_Some_2 arr (Z.to_nat i) Hi) as [w Hw].
  rewrite Hw. reflexivity.
Qed.

Lemma write_pass_written size arr0 :
  0 <= size -> length arr0 = Z.to_nat size ->
  written size arr0 size (write_pass size arr0).
Proof.
  intros Hsize Hlen. unfold write_pass.
  apply (for_loop_invariant (written size arr0)); [exact Hsize | |].
  - split; [reflexivity | split]; [intros; lia | reflexivity].
  - intros k arr Hk (Hl & Hlow & Hhigh). unfold write_body. split; [| split].
    + now rewrite length_store.
    + intros j Hj. destruct (Z.eq_dec j k) as [-> | Hne].
      * apply load_store_eq. lia.
      * rewrite load_store_ne by lia. apply Hlow. lia.
    + intros j Hj. rewrite load_store_ne by lia. apply Hhigh. lia.
Qed.

Lemma int_succ (k : Z) : 0 <= k < Int32.max_int -> Int32.add k 1 = k + 1.
Proof.
  unfold Int32.add, Int32.wrap, Int32.max_int. intros Hk.
  rewrite Z.mod_small by lia. lia.
Qed.

Lemma read_pass_accumulating size arr :
  0 <= size <= Int32.max_int ->
  accumulating size 0 arr ->
  accumulating size size (read_pass size arr).
Proof.
  intros Hsize Hinit. unfold read_pass.
  apply (for_loop_invariant (accumulating size)); [lia | exact Hinit |].
  intros k t Hk (Hl & Hdone & Htodo). unfold read_body.
  rewrite int_succ by lia. unfold Int32.rem.
  split; [| split].
  - now rewrite length_store.
  - intros j Hj. destruct (Z.eq_dec j k) as [-> | Hne].
    + rewrite load_store_eq by lia.
      rewrite (Htodo k) by lia. unfold accumulated.
      destruct (Z.ltb_spec (k + 1) size) as [Hin | Hlast].
      * rewrite Z.rem_small by lia. rewrite (Htodo (k + 1)) by lia. reflexivity.
      * assert (Hk1 : k + 1 = size) by lia. rewrite Hk1.
        rewrite Z.rem_same by lia.
        destruct (Z.eqb_spec size 1) as [H1 | Hn1].
        -- assert (k = 0) by lia. subst k. rewrite (Htodo 0) by lia. reflexivity.
        -- rewrite (Hdone 0) by lia. unfold accumulated.
           destruct (Z.ltb_spec (0 + 1) size) as [_ | Hbad]; [reflexivity | lia].
    + rewrite load_store_ne by lia. apply Hdone. lia.
  - intros j Hj. rewrite load_store_ne by lia. apply Htodo. lia.
Qed.

(** The buffer after the memory phase, for any size an [int] can hold
    and any initial contents. *)
Lemma mem_phase_load size arr0 j :
  0 <= size <= Int32.max_int -> length arr0 = Z.to_nat size ->
  0 <= j < size ->
  mem_phase size arr0 !! Z.to_nat j = Some (accumulated size j).
Proof.
  intros Hsize Hlen Hj. unfold mem_phase.
  destruct (write_pass_written size arr0) as (Hl & Hlow & _); [lia | exact Hlen |].
  destruct (read_pass_accumulating size (write_pass size arr0)) as (Hl' & Hdone & _);
    [exact Hsize | |].
  - split; [congruence | split]; [intros; lia | intros i Hi; now apply Hlow].
  - apply load_lookup; [lia | now apply Hdone].
Qed.

Lemma mem_phase_length size arr0 :
  0 <= size <= Int32.max_int -> length arr0 = Z.to_nat size ->
  length (mem_phase size arr0) = Z.to_nat size.
Proof.
  intros Hsize Hlen. unfold mem_phase.
  destruct (write_pass_written size arr0) as (Hl & Hlow & _); [lia | exact Hlen |].
  destruct (read_pass_accumulating size (write_pass size arr0)) as (Hl' & _);
    [exact Hsize | | exact Hl'].
  split; [congruence | split]; [intros; lia | intros i Hi; now apply Hlow].
Qed.

(** Up to [2^29] elements no value of the phase leaves the range of [int]. *)
Lemma accumulated_inner size j :
  0 <= j -> j + 1 < size -> size <= 2 ^ 29 ->
  accumulated size j = j * 2 + (j + 1) * 2.
Proof.
  intros Hj Hin Hsize. unfold accumulated.
  destruct (Z.ltb_spec (j + 1) size) as [_ | Hbad]; [| lia].
  unfold Int32.add, Int32.mul, Int32.wrap.
  change (2 ^ 29) with 536870912 in Hsize.
  change (2 ^ 31) with 2147483648. change (2 ^ 32) with 4294967296.
  rewrite (Z.mod_small (j * 2 + 2147483648)) by lia.
  rewrite (Z.mod_small ((j + 1) * 2 + 2147483648)) by lia.
  rewrite Z.mod_small by lia. lia.
Qed.

Lemma accumulated_last size :
  2 <= size <= 2 ^ 29 ->
  accumulated size (size - 1) = (size - 1) * 2 + 2.
Proof.
  intros Hsize. unfold accumulated.
  destruct (Z.ltb_spec (size - 1 + 1) size) as [Hbad | _]; [lia |].
  destruct (Z.eqb_spec size 1) as [Hbad | _]; [lia |].
  unfold Int32.add, Int32.mul, Int32.wrap.
  change (2 ^ 29) with 536870912 in Hsize.
  change (2 ^ 31) with 2147483648. change (2 ^ 32) with 4294967296.
  change (((0 * 2 + 2147483648) mod 4294967296 - 2147483648 +
           ((1 * 2 + 2147483648) mod 4294967296 - 2147483648) + 2147483648)
          mod 4294967296 - 2147483648) with 2.
  rewrite (Z.mod_small ((size - 1) * 2 + 2147483648)) by lia.
  rewrite Z.mod_small by lia. lia.
Qed.

Lemma accumulated_single : accumulated 1 0 = 0.
Proof. reflexivity. Qed.

End MemoryPhase.

(** ** Control flow of [x86_task] *)

Section ControlFlow.
Import x86_task.

Lemma ITERATIONS_range : 0 <= ITERATIONS <= Int32.max_int.
Proof. unfold ITERATIONS, Int32.max_int. lia. Qed.

Lemma ARRAY_SIZE_range : 2 <= ARRAY_SIZE <= 2 ^ 29.
Proof. unfold ARRAY_SIZE. lia. Qed.

Lemma ARRAY_SIZE_int : 0 <= ARRAY_SIZE <= Int32.max_int.
Proof. unfold ARRAY_SIZE, Int32.max_int. lia. Qed.

Lemma run_add (n m : nat) (s : state) :
  run (n + m) s = match run n s with Some s' => run m s' | None => None end.
Proof.
  revert s. induction n as [| n IH]; intros s; simpl; [reflexivity |].
  destruct (step s) as [s' |]; [apply IH | reflexivity].
Qed.

Lemma run_one (s : state) : run 1 s = step s.
Proof. simpl. now destruct (step s). Qed.

(** Every transition out of a running state leads to a running state:
    the only edge into line 53 is the false branch of [while (true)]. *)
Lemma step_running (s : state) :
  running s -> exists s', step s = Some s' /\ running s'.
Proof.
  intros [Hd Hr]. unfold step.
  destruct s as [l j v]; simpl in *.
  destruct l; try contradiction;
    try (destruct (j <? _));
    eexists; (split; [reflexivity |]); split; simpl; discriminate.
Qed.

Lemma run_running (n : nat) (s : state) :
  running s -> exists s', run n s = Some s' /\ running s'.
Proof.
  revert s. induction n as [| n IH]; intros s Hs; simpl.
  - now exists s.
  - destruct (step_running s Hs) as (s' & -> & Hs'). now apply IH.
Qed.

Lemma counted_loop_run l bound body (m : nat) :
  counted_loop l bound body ->
  bound <= Int32.max_int ->
  forall j v, 0 <= j -> j + Z.of_nat m = bound ->
    run m {| pc := l; i := j; vars := v |}
    = Some {| pc := l; i := bound;
              vars := foldl (fun acc k => body k acc) v (seqZ j (Z.of_nat m)) |}.
Proof.
  intros Hloop Hbound. induction m as [| m IH]; intros j v Hj Hsum.
  - cbn [run]. rewrite seqZ_nil by lia. cbn [foldl]. f_equal. f_equal. lia.
  - cbn [run]. rewrite Hloop by (simpl; first [reflexivity | lia]). cbn [pc i vars].
    rewrite int_succ by lia.
    rewrite IH by lia.
    rewrite (seqZ_cons j (Z.of_nat (S m))) by lia.
    replace (Z.pred (Z.of_nat (S m))) with (Z.of_nat m) by lia.
    reflexivity.
Qed.

Lemma counted_loop_complete l bound body v :
  counted_loop l bound body ->
  0 <= bound <= Int32.max_int ->
  run (Z.to_nat bound) {| pc := l; i := 0; vars := v |}
  = Some {| pc := l; i := bound; vars := for_loop bound body v |}.
Proof.
  intros Hloop Hbound.
  rewrite (counted_loop_run l bound body (Z.to_nat bound) Hloop) by lia.
  unfold for_loop. rewrite Z2Nat.id by lia. reflexivity.
Qed.

Lemma int_for_loop :
  counted_loop at_int_for ITERATIONS
    (fun _ v => {| result := int_step (result v); f_result := f_result v; array := array v |}).
Proof.
  intros [l j v] Hl Hj. simpl in *. subst l. unfold step. simpl.
  destruct (Z.ltb_spec j ITERATIONS); [reflexivity | lia].
Qed.

Lemma float_for_loop :
  counted_loop at_float_for ITERATIONS
    (fun _ v => {| result := result v; f_result := float_step (f_result v); array := array v |}).
Proof.
  intros [l j v] Hl Hj. simpl in *. subst l. unfold step. simpl.
  destruct (Z.ltb_spec j ITERATIONS); [reflexivity | lia].
Qed.

Lemma write_for_loop :
  counted_loop at_write_for ARRAY_SIZE
    (fun k v => {| result := result v; f_result := f_result v; array := write_body k (array v) |}).
Proof.
  intros [l j v] Hl Hj. simpl in *. subst l. unfold step. simpl.
  destruct (Z.ltb_spec j ARRAY_SIZE); [reflexivity | lia].
Qed.

Lemma read_for_loop :
  counted_loop at_read_for ARRAY_SIZE
    (fun k v => {| result := result v; f_result := f_result v;
                   array := read_body ARRAY_SIZE k (array v) |}).
Proof.
  intros [l j v] Hl Hj. simpl in *. subst l. unfold step. simpl.
  destruct (Z.ltb_spec j ARRAY_SIZE); [reflexivity | lia].
Qed.

Lemma locals_eta (v : locals) :
  v = {| result := result v; f_result := f_result v; array := array v |}.
Proof. now destruct v. Qed.

Ltac by_fields :=
  match goal with
  | |- ?lhs = _ => rewrite (locals_eta lhs)
  end;
  cbn [result f_result array];
  f_equal;
  first [ rewrite (for_loop_proj result _ (fun _ t => t)) by reflexivity; apply for_loop_id
        | rewrite (for_loop_proj f_result _ (fun _ t => t)) by reflexivity; apply for_loop_id
        | rewrite (for_loop_proj array _ (fun _ t => t)) by reflexivity; apply for_loop_id
        | idtac ].

Lemma int_for_locals n v :
  for_loop n
    (fun _ v => {| result := int_step (result v); f_result := f_result v; array := array v |}) v
  = {| result := for_loop n (fun _ => int_step) (result v);
       f_result := f_result v; array := array v |}.
Proof.
  by_fields. apply (for_loop_proj result _ (fun _ => int_step)). reflexivity.
Qed.

Lemma float_for_locals n v :
  for_loop n
    (fun _ v => {| result := result v; f_result := float_step (f_result v); array := array v |}) v
  = {| result := result v;
       f_result := for_loop n (fun _ => float_step) (f_result v); array := array v |}.
Proof.
  by_fields. apply (for_loop_proj f_result _ (fun _ => float_step)). reflexivity.
Qed.

Lemma write_for_locals n v :
  for_loop n
    (fun k v => {| result := result v; f_result := f_result v; array := write_body k (array v) |}) v
  = {| result := result v; f_result := f_result v; array := for_loop n write_body (array v) |}.
Proof.
  by_fields. apply (for_loop_proj array _ write_body). reflexivity.
Qed.

Lemma read_for_locals size n v :
  for_loop n
    (fun k v => {| result := result v; f_result := f_result v;
                   array := read_body size k (array v) |}) v
  = {| result := result v; f_result := f_result v;
       array := for_loop n (read_body size) (array v) |}.
Proof.
  by_fields. apply (for_loop_proj array _ (read_body size)). reflexivity.
Qed.

Lemma round_length_sum :
  round_length =
  (1 + (Z.to_nat ITERATIONS + (1 + (Z.to_nat ITERATIONS + (1 + (Z.to_nat ARRAY_SIZE
     + (1 + (Z.to_nat ARRAY_SIZE + (1 + 1)))))))))%nat.
Proof.
  unfold round_length.
  assert (HI : 0 <= ITERATIONS) by apply ITERATIONS_range.
  assert (HA : 0 <= ARRAY_SIZE) by apply ARRAY_SIZE_int.
  revert HI HA. generalize ITERATIONS ARRAY_SIZE. intros n m Hn Hm. lia.
Qed.

(** One round: from line 17 the routine is back at line 17 after
    [round_length] transitions, its locals updated by [round]. *)
Lemma int_for_run v :
  run (Z.to_nat ITERATIONS) {| pc := at_int_for; i := 0; vars := v |}
  = Some {| pc := at_int_for; i := ITERATIONS;
            vars := {| result := int_phase (result v);
                       f_result := f_result v; array := array v |} |}.
Proof.
  rewrite (counted_loop_complete _ _ _ v int_for_loop ITERATIONS_range).
  rewrite (int_for_locals ITERATIONS v). unfold int_phase. reflexivity.
Qed.

Lemma float_for_run v :
  run (Z.to_nat ITERATIONS) {| pc := at_float_for; i := 0; vars := v |}
  = Some {| pc := at_float_for; i := ITERATIONS;
            vars := {| result := result v;
                       f_result := float_phase (f_result v); array := array v |} |}.
Proof.
  rewrite (counted_loop_complete _ _ _ v float_for_loop ITERATIONS_range).
  rewrite (float_for_locals ITERATIONS v). unfold float_phase. reflexivity.
Qed.

Lemma write_for_run v :
  run (Z.to_nat ARRAY_SIZE) {| pc := at_write_for; i := 0; vars := v |}
  = Some {| pc := at_write_for; i := ARRAY_SIZE;
            vars := {| result := result v; f_result := f_result v;
                       array := write_pass ARRAY_SIZE (array v) |} |}.
Proof.
  rewrite (counted_loop_complete _ _ _ v write_for_loop ARRAY_SIZE_int).
  rewrite (write_for_locals ARRAY_SIZE v). unfold write_pass. reflexivity.
Qed.

Lemma read_for_run v :
  run (Z.to_nat ARRAY_SIZE) {| pc := at_read_for; i := 0; vars := v |}
  = Some {| pc := at_read_for; i := ARRAY_SIZE;
            vars := {| result := result v; f_result := f_result v;
                       array := read_pass ARRAY_SIZE (array v) |} |}.
Proof.
  rewrite (counted_loop_complete _ _ _ v read_for_loop ARRAY_SIZE_int).
  rewrite (read_for_locals ARRAY_SIZE ARRAY_SIZE v). unfold read_pass. reflexivity.
Qed.

Ltac take_exit :=
  rewrite run_add, run_one; unfold step at 1; cbn [pc i];
  rewrite ?Z.ltb_irrefl; unfold while_cond, goto; cbn [pc i vars result f_result array].

(** One round: from line 17 the routine is back at line 17 after
    [round_length] transitions, its locals updated by [round]. *)
Lemma round_run (s : state) :
  pc s = at_while ->
  run round_length s = Some {| pc := at_while; i := 0; vars := round (vars s) |}.
Proof.
  destruct s as [l j v]. cbn [pc vars]. intros ->.
  rewrite round_length_sum.
  take_exit.
  rewrite run_add, int_for_run. take_exit.
  rewrite run_add, float_for_run. take_exit.
  rewrite run_add, write_for_run. take_exit.
  rewrite run_add, read_for_run. take_exit.
  rewrite run_one. unfold step, goto. cbn [pc vars result f_result array].
  unfold round, mem_phase. reflexivity.
Qed.

Lemma rounds_run (k : nat) (s : state) :
  pc s = at_while -> i s = 0 ->
  run (k * round_length) s
  = Some {| pc := at_while; i := 0; vars := Nat.iter k round (vars s) |}.
Proof.
  revert s. induction k as [| k IH]; intros [l j v]; cbn [pc i vars]; intros -> ->.
  - reflexivity.
  - replace (S k * round_length)%nat with (round_length + k * round_length)%nat by lia.
    rewrite run_add, round_run by reflexivity.
    rewrite IH by reflexivity. cbn [vars].
    f_equal. f_equal. symmetry. apply Nat.iter_succ_r.
Qed.

(** The buffer of the program itself: its last element ends as
    [2 * (ARRAY_SIZE - 1) + 2], element 0 having been updated before it is
    added. *)
Lemma mem_phase_ARRAY_SIZE_last (array0 : list Z) :
  length array0 = Z.to_nat ARRAY_SIZE ->
  mem_phase ARRAY_SIZE array0 !! Z.to_nat (ARRAY_SIZE - 1) = Some 2097152.
Proof.
  intros Hlen. pose proof ARRAY_SIZE_int as HA. pose proof ARRAY_SIZE_range as HR.
  rewrite (mem_phase_load ARRAY_SIZE array0 (ARRAY_SIZE - 1) HA Hlen) by lia.
  rewrite (accumulated_last ARRAY_SIZE HR). reflexivity.
Qed.

End ControlFlow.

(** ** Argument parsing *)

Section Stoi.
Import std.

Lemma decimal_nonneg acc ds :
  0 <= acc -> string_forall isdigit ds = true -> 0 <= decimal acc ds.
Proof.
  revert acc. induction ds as [| ch ds IH]; intros acc Hacc Hds; simpl in *; [exact Hacc |].
  apply andb_true_iff in Hds as [Hch Hds]. apply IH; [| exact Hds].
  unfold isdigit in Hch. apply andb_true_iff in Hch as [H1 _]. apply Z.leb_le in H1.
  unfold digit_value. lia.
Qed.

Lemma digit_not_space ch : isdigit ch = true -> isspace ch = false.
Proof.
  unfold isdigit, isspace. intros H.
  apply andb_true_iff in H as [H1 H2].
  apply Z.leb_le in H1. apply Z.leb_le in H2.
  apply orb_false_iff. split.
  - apply Z.eqb_neq. lia.
  - apply andb_false_iff. right. apply Z.leb_gt. lia.
Qed.

Lemma digit_not_sign ch s : isdigit ch = true -> take_sign (String ch s) = (false, String ch s).
Proof.
  intros H. unfold take_sign.
  destruct (Ascii.eqb_spec ch "-") as [-> | Hm]; [discriminate H |].
  destruct (Ascii.eqb_spec ch "+") as [-> | Hp]; [discriminate H |].
  destruct ch as [[] [] [] [] [] [] [] []]; try reflexivity; congruence.
Qed.

Lemma skip_spaces_app ws s :
  string_forall isspace ws = true -> starts_with isspace s = false ->
  skip_spaces (ws +:+ s) = s.
Proof.
  intros Hws Hs. induction ws as [| ch ws IH]; simpl in *.
  - destruct s as [| ch s]; [reflexivity |]. simpl in *. now rewrite Hs.
  - apply andb_true_iff in Hws as [Hch Hws]. rewrite Hch. now apply IH.
Qed.

Lemma take_digits_app ds rest acc :
  string_forall isdigit ds = true -> starts_with isdigit rest = false ->
  take_digits (ds +:+ rest) (Some acc) = Some (decimal acc ds).
Proof.
  intros Hds Hrest. revert acc. induction ds as [| ch ds IH]; intros acc; simpl in *.
  - destruct rest as [| ch rest]; [reflexivity |]. simpl in *. now rewrite Hrest.
  - apply andb_true_iff in Hds as [Hch Hds]. rewrite Hch. simpl. now apply IH.
Qed.

Lemma take_digits_first ch ds rest :
  isdigit ch = true -> string_forall isdigit ds = true -> starts_with isdigit rest = false ->
  take_digits (String ch ds +:+ rest) None = Some (decimal 0 (String ch ds)).
Proof.
  intros Hch Hds Hrest. simpl. rewrite Hch. simpl.
  now apply take_digits_app.
Qed.

Lemma take_digits_none s : starts_with isdigit s = false -> take_digits s None = None.
Proof.
  destruct s as [| ch s]; [reflexivity |]. simpl. now intros ->.
Qed.

Lemma int_range_check (v : Z) :
  0 <= v ->
  (Int32.min_int <=? v) && (v <=? Int32.max_int) = (v <=? Int32.max_int).
Proof.
  intros Hv. destruct (Z.leb_spec Int32.min_int v) as [_ | Hbad]; [reflexivity |].
  unfold Int32.min_int in Hbad. lia.
Qed.

(** A digit run, after optional white space and an optional [+], is read
    up to its last digit; what follows it is dropped. *)
Lemma stoi_prefix ws (plus : bool) ch ds rest :
  string_forall isspace ws = true ->
  isdigit ch = true -> string_forall isdigit ds = true ->
  starts_with isdigit rest = false ->
  stoi (ws +:+ (if plus then "+" else "") +:+ String ch ds +:+ rest)
  = if decimal 0 (String ch ds) <=? Int32.max_int
    then inr (decimal 0 (String ch ds))
    else inl out_of_range.
Proof.
  intros Hws Hch Hds Hrest. unfold stoi.
  assert (Hnn : 0 <= decimal 0 (String ch ds)).
  { apply decimal_nonneg; [lia |]. simpl. now rewrite Hch, Hds. }
  rewrite skip_spaces_app; [| exact Hws |].
  - destruct plus.
    + change ("+" +:+ String ch ds +:+ rest) with (String "+" (String ch ds +:+ rest)).
      cbn [take_sign].
      rewrite take_digits_first by assumption.
      now rewrite int_range_check.
    + change ("" +:+ String ch ds +:+ rest) with (String ch (ds +:+ rest)).
      rewrite digit_not_sign by exact Hch.
      change (String ch (ds +:+ rest)) with (String ch ds +:+ rest).
      rewrite take_digits_first by assumption.
      now rewrite int_range_check.
  - destruct plus; simpl; [reflexivity | now apply digit_not_space].
Qed.

Lemma stoi_no_digit s :
  starts_with isdigit (snd (take_sign (skip_spaces s))) = false ->
  stoi s = inl invalid_argument.
Proof.
  intros H. unfold stoi. destruct (take_sign (skip_spaces s)) as [neg rest].
  simpl in H. now rewrite take_digits_none.
Qed.

End Stoi.

Section Harness.

Lemma launch_loop (n : Z) :
  for_loop n (fun _ threads => threads ++ [Thread_x86_task]) []
  = replicate (Z.to_nat n) Thread_x86_task.
Proof.
  destruct (Z_lt_ge_dec n 0) as [Hneg | Hpos].
  - rewrite for_loop_nonpos by lia. now replace (Z.to_nat n) with 0%nat by lia.
  - rewrite <- (Z2Nat.id n) at 1 by lia. rewrite for_loop_const.
    generalize (Z.to_nat n) as k. intros k. induction k as [| k IH]; [reflexivity |].
    rewrite Nat.iter_succ, IH.
    change (replicate k Thread_x86_task ++ [Thread_x86_task])
      with (replicate k Thread_x86_task ++ replicate 1 Thread_x86_task).
    rewrite <- replicate_add. f_equal. lia.
Qed.

Lemma main_count hw argv n :
  num_threads hw argv = inr n ->
  main hw argv = {| launched := replicate (Z.to_nat n) Thread_x86_task;
                    ending := if 0 <? n then Blocked else Exit 0 |}.
Proof.
  intros Hn. unfold main. rewrite Hn, launch_loop. f_equal.
  destruct (Z.ltb_spec 0 n) as [Hpos | Hle].
  - destruct (Z.to_nat n) as [| k] eqn:E; [lia | reflexivity].
  - now replace (Z.to_nat n) with 0%nat by lia.
Qed.

Lemma main_exception hw argv e :
  num_threads hw argv = inl e ->
  main hw argv = {| launched := []; ending := Terminate e |}.
Proof. intros He. unfold main. now rewrite He. Qed.

Lemma num_threads_arg hw prog arg : num_threads hw [prog; arg] = std.stoi arg.
Proof. reflexivity. Qed.

Lemma num_threads_default hw argv :
  (length argv <= 1)%nat -> num_threads hw argv = inr (Int32.wrap hw).
Proof.
  intros Hlen. unfold num_threads.
  destruct (Z.ltb_spec 1 (Z.of_nat (length argv))); [lia | reflexivity].
Qed.

End Harness.

(** ** Floating-point phase *)

Section FloatPhase.
Import x86_task.

(** The three literals, as binary32 values. *)
Lemma seeds_binary32 :
  x = S754_finite false 10317988 (-23) /\
  y = S754_finite false 9563013 (-21) /\
  z = S754_finite false 16546529 (-21).
Proof. repeat split; vm_compute; reflexivity. Qed.

(** [(x * y + z) / y], about 2.96, whatever [f_result] held before. *)
Lemma float_arith_value (f : F32.float) :
  float_arith f = S754_finite false 12416244 (-22).
Proof. vm_compute. reflexivity. Qed.


(** With the seeds of line 11 the test of line 36 never succeeds. *)
Lemma float_threshold_not_exceeded (f : F32.float) :
  F32.gt (float_arith f) threshold = false.
Proof. rewrite float_arith_value. vm_compute. reflexivity. Qed.

Lemma float_step_value (f : F32.float) :
  float_step f = S754_finite false 12416244 (-22).
Proof.
  unfold float_step, float_reset.
  rewrite float_threshold_not_exceeded. apply float_arith_value.
Qed.

End FloatPhase.

(** * The properties of the specification *)

Section Claims.
Import x86_task.

(** C1 (amended). For a buffer of [M] elements, [1 <= M <= 2^29], that
    the write pass has initialised ([buffer[i] = i*2]), the in-place
    read-accumulate pass leaves [buffer[i] = i*2 + ((i+1) % M)*2] in every
    element but the last one, and also in the single element when
    [M = 1]. When [M >= 2] the last element has added element 0 after
    element 0 was updated, and holds [(M-1)*2 + 2]. *)
Theorem read_accumulate_pass (M : Z) (buffer : list Z) :
  1 <= M <= 2 ^ 29 ->
  length buffer = Z.to_nat M ->
  (forall i, 0 <= i < M -> buffer !! Z.to_nat i = Some (i * 2)) ->
  (forall i, 0 <= i < M -> i + 1 < M \/ M = 1 ->
     read_pass M buffer !! Z.to_nat i = Some (i * 2 + ((i + 1) mod M) * 2)) /\
  (2 <= M -> read_pass M buffer !! Z.to_nat (M - 1) = Some ((M - 1) * 2 + 2)).
Proof.
  intros HM Hlen Hinit.
  assert (Hint : 0 <= M <= Int32.max_int).
  { unfold Int32.max_int. change (2 ^ 29) with 536870912 in HM. lia. }
  destruct (read_pass_accumulating M buffer Hint) as (Hl & Hdone & _).
  { split; [exact Hlen | split]; [intros; lia |].
    intros j Hj. unfold load. rewrite (Hinit j Hj). simpl.
    unfold Int32.mul, Int32.wrap.
    change (2 ^ 29) with 536870912 in HM.
    change (2 ^ 31) with 2147483648. change (2 ^ 32) with 4294967296.
    rewrite Z.mod_small by lia. lia. }
  split.
  - intros i Hi Hcase. apply load_lookup; [lia |]. rewrite (Hdone i Hi).
    destruct Hcase as [Hin | ->].
    + rewrite accumulated_inner by lia. rewrite Z.mod_small by lia. reflexivity.
    + assert (i = 0) by lia. subst i. reflexivity.
  - intros H2. apply load_lookup; [lia |]. rewrite Hdone by lia.
    apply accumulated_last. lia.
Qed.

Lemma read_accumulate_pass_witness :
  read_pass 3 [0; 2; 4] !! 1%nat = Some (1 * 2 + ((1 + 1) mod 3) * 2) /\
  read_pass 3 [0; 2; 4] !! 2%nat = Some ((3 - 1) * 2 + 2).
Proof.
  assert (Hinit : forall i, 0 <= i < 3 -> [0; 2; 4] !! Z.to_nat i = Some (i * 2)).
  { intros i Hi. assert (Hc : i = 0 \/ i = 1 \/ i = 2) by lia.
    destruct Hc as [-> | [-> | ->]]; reflexivity. }
  destruct (read_accumulate_pass 3 [0; 2; 4]) as [Hinner Hlast];
    [lia | reflexivity | exact Hinit |].
  split.
  - apply (Hinner 1); lia.
  - apply Hlast. lia.
Defined.

(** C1 as stated fails on the last element of any buffer of two or more
    elements: with [M = 3] the pass leaves 6 in [buffer[2]], not
    [2*2 + ((2+1) % 3)*2 = 4]. *)
Lemma read_accumulate_pass_last_element :
  ~ (forall i, 0 <= i < 3 ->
       read_pass 3 [0; 2; 4] !! Z.to_nat i = Some (i * 2 + ((i + 1) mod 3) * 2)).
Proof.
  intros H. specialize (H 2 ltac:(lia)). vm_compute in H. discriminate H.
Qed.

(** C10. After the two passes of the memory phase over a buffer of
    [M >= 2] elements, [buffer[i] = i*2 + (i+1)*2] for every [i < M-1] and
    [buffer[M-1] = (M-1)*2 + (0*2 + 1*2)]: the last element reads element 0
    after its update. This holds in the arithmetic of [int] for every size
    an [int] can hold, and with exact integers up to [2^29] elements. For
    [M = 1] the single element ends as 0. *)
Theorem mem_phase_in_place (M : Z) (array0 : list Z) :
  length array0 = Z.to_nat M ->
  (2 <= M <= Int32.max_int ->
     (forall i, 0 <= i < M - 1 ->
        mem_phase M array0 !! Z.to_nat i
        = Some (Int32.add (Int32.mul i 2) (Int32.mul (i + 1) 2))) /\
     mem_phase M array0 !! Z.to_nat (M - 1)
     = Some (Int32.add (Int32.mul (M - 1) 2) (Int32.add (Int32.mul 0 2) (Int32.mul 1 2)))) /\
  (2 <= M <= 2 ^ 29 ->
     (forall i, 0 <= i < M - 1 ->
        mem_phase M array0 !! Z.to_nat i = Some (i * 2 + (i + 1) * 2)) /\
     mem_phase M array0 !! Z.to_nat (M - 1) = Some ((M - 1) * 2 + (0 * 2 + 1 * 2))) /\
  (M = 1 -> mem_phase M array0 = [0]).
Proof.
  intros Hlen. split; [| split].
  - intros HM. split.
    + intros i Hi. rewrite mem_phase_load by lia. unfold accumulated.
      destruct (Z.ltb_spec (i + 1) M); [reflexivity | lia].
    + rewrite mem_phase_load by lia. unfold accumulated.
      destruct (Z.ltb_spec (M - 1 + 1) M); [lia |].
      destruct (Z.eqb_spec M 1); [lia | reflexivity].
  - intros HM.
    assert (Hint : 0 <= M <= Int32.max_int).
    { unfold Int32.max_int. change (2 ^ 29) with 536870912 in HM. lia. }
    split.
    + intros i Hi. rewrite mem_phase_load by lia.
      rewrite accumulated_inner by lia. reflexivity.
    + rewrite mem_phase_load by lia. rewrite accumulated_last by lia. reflexivity.
  - intros ->.
    assert (Hint : 0 <= 1 <= Int32.max_int) by (unfold Int32.max_int; lia).
    pose proof (mem_phase_length 1 array0 Hint Hlen) as Hl.
    pose proof (mem_phase_load 1 array0 0 Hint Hlen ltac:(lia)) as H0.
    destruct (mem_phase 1 array0) as [| v [| w t]]; try discriminate Hl.
    simpl in H0. now injection H0 as ->.
Qed.

Lemma mem_phase_in_place_witness :
  mem_phase 4 [7; 7; 7; 7] !! 1%nat = Some (1 * 2 + (1 + 1) * 2) /\
  mem_phase 4 [7; 7; 7; 7] !! 3%nat = Some ((4 - 1) * 2 + (0 * 2 + 1 * 2)) /\
  mem_phase 1 [7] = [0].
Proof.
  destruct (mem_phase_in_place 4 [7; 7; 7; 7] eq_refl) as (_ & Hexact & _).
  destruct Hexact as [Hinner Hlast]; [lia |].
  destruct (mem_phase_in_place 1 [7] eq_refl) as (_ & _ & Hone).
  split; [apply (Hinner 1); lia | split]; [exact Hlast | now apply Hone].
Defined.

(** C6. For every 32-bit value [V], line 23 computes
    [(V << 3) | (V >> 29)] with the left shift reduced modulo [2^32]; the
    result is again a 32-bit value, and it is [V] rotated left by three
    places: bit [k] of the result is bit [(k - 3) mod 32] of [V]. *)
Theorem rotate_left_by_3 (V : Z) :
  UInt32.in_range V ->
  rotate V = Z.lor ((V * 2 ^ 3) mod 2 ^ 32) (V / 2 ^ 29) /\
  UInt32.in_range (rotate V) /\
  (forall k, 0 <= k < 32 -> Z.testbit (rotate V) k = Z.testbit V ((k - 3) mod 32)).
Proof.
  intros HV. split; [apply rotate_arith | split]; [now apply rotate_range |].
  intros k Hk. rewrite rotate_testbit by assumption. f_equal.
  replace (k + 29) with ((k - 3) + 1 * 32) by lia.
  apply Z.mod_add. lia.
Qed.

Lemma rotate_left_by_3_witness :
  rotate 2147483649 = Z.lor ((2147483649 * 2 ^ 3) mod 2 ^ 32) (2147483649 / 2 ^ 29) /\
  UInt32.in_range (rotate 2147483649) /\
  (forall k, 0 <= k < 32 ->
     Z.testbit (rotate 2147483649) k = Z.testbit 2147483649 ((k - 3) mod 32)).
Proof.
  apply (rotate_left_by_3 2147483649).
  unfold UInt32.in_range. rewrite modulus_val. lia.
Defined.

(** C7. Let [v] be the accumulator after the multiply-accumulate,
    subtract, XOR and rotate of step [k]. If [v = 0] the next step begins
    from [a + b + c + d = 10], otherwise it begins from [v] unchanged; in
    both cases the arithmetic of the next step is applied to that value. *)
Theorem int_reset_feeds_next_step (r0 : Z) (k : nat) :
  UInt32.in_range r0 ->
  let v := int_arith (int_at k r0) in
  (v = 0 ->
     int_at (S k) r0 = 10 /\
     int_at (S (S k)) r0 = int_reset (int_arith 10)) /\
  (v <> 0 ->
     int_at (S k) r0 = v /\
     int_at (S (S k)) r0 = int_reset (int_arith v)).
Proof.
  intros _ v. subst v. cbn [int_at]. set (r := int_at k r0).
  split; intros Hv.
  - assert (Hs : int_step r = 10).
    { unfold int_step, int_reset. rewrite Hv. reflexivity. }
    rewrite Hs. split; reflexivity.
  - assert (Hs : int_step r = int_arith r).
    { unfold int_step, int_reset. apply Z.eqb_neq in Hv. now rewrite Hv. }
    rewrite Hs. split; reflexivity.
Qed.

Lemma int_reset_feeds_next_step_witness :
  (int_at 1 5 = 10 /\ int_at 2 5 = int_reset (int_arith 10)) /\
  (int_at 1 0 = int_arith 0 /\ int_at 2 0 = int_reset (int_arith (int_arith 0))).
Proof.
  assert (H5 : UInt32.in_range 5) by (unfold UInt32.in_range; rewrite modulus_val; lia).
  assert (H0 : UInt32.in_range 0) by (unfold UInt32.in_range; rewrite modulus_val; lia).
  split.
  - apply (int_reset_feeds_next_step 5 0 H5). reflexivity.
  - apply (int_reset_feeds_next_step 0 0 H0). vm_compute. discriminate.
Defined.

(** C8. Started at line 17, [x86_task] is still running after any number
    of transitions: it never reaches [delete[]] (line 53) nor returns.
    Every round comes to its end, after [round_length > 0] transitions,
    and is followed by another one: after [k] rounds the routine is again
    at line 17, its variables updated [k] times by [round]. *)
Theorem x86_task_never_returns (array0 : list Z) :
  (forall n, exists s,
      run n (entry array0) = Some s /\ pc s <> at_delete /\ pc s <> returned) /\
  (forall k, run (k * round_length) (entry array0)
             = Some {| pc := at_while; i := 0;
                       vars := Nat.iter k round (vars (entry array0)) |}) /\
  (0 < round_length)%nat.
Proof.
  split; [| split].
  - intros n. destruct (run_running n (entry array0)) as (s & Hrun & Hd & Hr).
    + split; discriminate.
    + now exists s.
  - intros k. now apply rounds_run.
  - rewrite round_length_sum. lia.
Qed.

(** C9. One step of the floating-point phase gives the same accumulator
    whatever the accumulator held before it: line 32 overwrites it with
    [x * y]. In particular the value written by the reset of line 37 is
    never read by the step that follows. *)
Theorem float_step_ignores_accumulator (f1 f2 : F32.float) :
  float_arith f1 = float_arith f2 /\
  float_step f1 = float_step f2 /\
  float_step (float_reset f1) = float_step f1 /\
  float_step float_seed_sum = float_step f2 /\
  (forall k, float_at (S k) f1 = float_at (S k) f2).
Proof.
  assert (Harith : forall u w, float_arith u = float_arith w) by reflexivity.
  assert (Hstep : forall u w, float_step u = float_step w).
  { intros u w. unfold float_step. now rewrite (Harith u w). }
  repeat split; auto.
Qed.


(** C2 (amended). The argument is read by [std::stoi]. If it is, after
    optional white space and an optional [+], a run of digits denoting
    [n] with [0 < n <= 2^31 - 1], followed by anything that does not start
    with a digit, the harness launches exactly [n] Load Units: trailing
    characters are ignored, not rejected. If the digits denote more than
    [2^31 - 1] the harness is terminated by an uncaught
    [std::out_of_range], and if no digit follows the optional white space
    and sign, by an uncaught [std::invalid_argument]; in both cases no
    Load Unit is launched and the exit status is not zero. *)
Theorem argument_parsing (hw : Z) (prog : string) :
  (forall ws plus ch ds rest,
      std.string_forall std.isspace ws = true ->
      std.isdigit ch = true -> std.string_forall std.isdigit ds = true ->
      std.starts_with std.isdigit rest = false ->
      let n := std.decimal 0 (String ch ds) in
      let arg := ws +:+ (if plus : bool then "+" else "") +:+ String ch ds +:+ rest in
      (0 < n <= Int32.max_int ->
         main hw [prog; arg]
         = {| launched := replicate (Z.to_nat n) Thread_x86_task; ending := Blocked |} /\
         length (launched (main hw [prog; arg])) = Z.to_nat n) /\
      (Int32.max_int < n ->
         main hw [prog; arg]
         = {| launched := []; ending := Terminate std.out_of_range |})) /\
  (forall arg,
      std.starts_with std.isdigit (snd (std.take_sign (std.skip_spaces arg))) = false ->
      main hw [prog; arg] = {| launched := []; ending := Terminate std.invalid_argument |} /\
      exits_nonzero (ending (main hw [prog; arg])) = true).
Proof.
  split.
  - intros ws plus ch ds rest Hws Hch Hds Hrest n arg.
    pose proof (stoi_prefix ws plus ch ds rest Hws Hch Hds Hrest) as Hstoi.
    fold n arg in Hstoi. split.
    + intros Hn.
      destruct (Z.leb_spec n Int32.max_int) as [_ | Hbad]; [| lia].
      assert (Hmain : main hw [prog; arg]
                      = {| launched := replicate (Z.to_nat n) Thread_x86_task;
                           ending := Blocked |}).
      { rewrite (main_count hw [prog; arg] n) by (now rewrite num_threads_arg).
        destruct (Z.ltb_spec 0 n); [reflexivity | lia]. }
      split; [exact Hmain |]. rewrite Hmain. apply length_replicate.
    + intros Hn.
      destruct (Z.leb_spec n Int32.max_int) as [Hbad | _]; [lia |].
      apply main_exception. now rewrite num_threads_arg.
  - intros arg Hnone.
    assert (Hmain : main hw [prog; arg]
                    = {| launched := []; ending := Terminate std.invalid_argument |}).
    { apply main_exception. rewrite num_threads_arg. now apply stoi_no_digit. }
    split; [exact Hmain |]. now rewrite Hmain.
Qed.

Lemma argument_parsing_witness :
  (main 8 ["mixed_load"; " +16 threads"]%string
   = {| launched := replicate 16 Thread_x86_task; ending := Blocked |} /\
   length (launched (main 8 ["mixed_load"; " +16 threads"]%string)) = 16%nat) /\
  main 8 ["mixed_load"; "4294967296"]%string
  = {| launched := []; ending := Terminate std.out_of_range |} /\
  (main 8 ["mixed_load"; "-x"]%string
   = {| launched := []; ending := Terminate std.invalid_argument |} /\
   exits_nonzero (ending (main 8 ["mixed_load"; "-x"]%string)) = true).
Proof.
  destruct (argument_parsing 8 "mixed_load") as [Hdigits Hnone].
  split; [| split].
  - destruct (Hdigits " "%string true "1"%char "6"%string " threads"%string
                eq_refl eq_refl eq_refl eq_refl) as [Hok _].
    apply Hok. vm_compute. split; [reflexivity | discriminate].
  - destruct (Hdigits ""%string false "4"%char "294967296"%string ""%string
                eq_refl eq_refl eq_refl eq_refl) as [_ Hbig].
    apply Hbig. reflexivity.
  - apply (Hnone "-x"%string). reflexivity.
Defined.

(** C2 as stated fails on an argument with trailing non-digit
    characters: ["12abc"] does not make the harness exit; twelve Load
    Units are launched. *)
Lemma trailing_characters_accepted :
  ~ (exits_nonzero (ending (main 8 ["mixed_load"; "12abc"]%string)) = true /\
     launched (main 8 ["mixed_load"; "12abc"]%string) = []).
Proof. intros [Hexit _]. vm_compute in Hexit. discriminate Hexit. Qed.

(** C3 (amended). Whenever the thread count, parsed from the argument or
    reported by the host, is zero or negative, the harness launches no
    Load Unit, has nothing to join and returns exit status 0: the count is
    neither rejected nor clamped. *)
Theorem nonpositive_count_exits_zero (hw : Z) (argv : list string) (n : Z) :
  num_threads hw argv = inr n ->
  n <= 0 ->
  main hw argv = {| launched := []; ending := Exit 0 |}.
Proof.
  intros Hcount Hn. rewrite (main_count hw argv n Hcount).
  replace (Z.to_nat n) with 0%nat by lia.
  destruct (Z.ltb_spec 0 n); [lia | reflexivity].
Qed.

Lemma nonpositive_count_exits_zero_witness :
  main 8 ["mixed_load"; "-3"]%string = {| launched := []; ending := Exit 0 |} /\
  main 0 ["mixed_load"]%string = {| launched := []; ending := Exit 0 |}.
Proof.
  split.
  - apply (nonpositive_count_exits_zero 8 ["mixed_load"; "-3"]%string (-3)); [reflexivity | lia].
  - apply (nonpositive_count_exits_zero 0 ["mixed_load"]%string 0); [reflexivity | lia].
Defined.

(** C3 as stated fails: with the argument ["0"] the count is 0, and the
    run neither ends with a non-zero status nor launches one Load Unit; it
    launches none and exits with status 0. *)
Lemma zero_count_not_signalled :
  ~ (forall n, num_threads 8 ["mixed_load"; "0"]%string = inr n -> n <= 0 ->
       exits_nonzero (ending (main 8 ["mixed_load"; "0"]%string)) = true \/
       length (launched (main 8 ["mixed_load"; "0"]%string)) = 1%nat).
Proof.
  intros H. destruct (H 0 eq_refl ltac:(lia)) as [Hstatus | Hclamp].
  - vm_compute in Hstatus. discriminate Hstatus.
  - vm_compute in Hclamp. discriminate Hclamp.
Qed.

(** C4 (amended). Without an argument the harness launches as many Load
    Units as the host reports logical processors, for every count an
    [int] can hold, zero included: when the host reports 0 no Load Unit is
    launched and the harness returns exit status 0; there is no fallback
    to 1. For a positive count the harness then waits in [join]. *)
Theorem default_thread_count (hw : Z) (argv : list string) :
  (length argv <= 1)%nat ->
  0 <= hw <= Int32.max_int ->
  length (launched (main hw argv)) = Z.to_nat hw /\
  (hw = 0 -> main hw argv = {| launched := []; ending := Exit 0 |}) /\
  (0 < hw -> ending (main hw argv) = Blocked).
Proof.
  intros Hargc Hhw.
  assert (Hwrap : Int32.wrap hw = hw).
  { unfold Int32.wrap. unfold Int32.max_int in Hhw.
    change (2 ^ 31) with 2147483648 in *. change (2 ^ 32) with 4294967296.
    rewrite Z.mod_small by lia. lia. }
  pose proof (num_threads_default hw argv Hargc) as Hcount. rewrite Hwrap in Hcount.
  rewrite (main_count hw argv hw Hcount). cbn [launched ending].
  split; [apply length_replicate | split].
  - intros ->. reflexivity.
  - intros Hpos. destruct (Z.ltb_spec 0 hw); [reflexivity | lia].
Qed.

Lemma default_thread_count_witness :
  (length (launched (main 8 ["mixed_load"]%string)) = 8%nat /\
   (8 = 0 -> main 8 ["mixed_load"]%string = {| launched := []; ending := Exit 0 |}) /\
   (0 < 8 -> ending (main 8 ["mixed_load"]%string) = Blocked)) /\
  main 0 ["mixed_load"]%string = {| launched := []; ending := Exit 0 |}.
Proof.
  assert (Hmax : forall v, 0 <= v <= 8 -> 0 <= v <= Int32.max_int).
  { intros v Hv. unfold Int32.max_int. lia. }
  split.
  - apply (default_thread_count 8 ["mixed_load"]%string); [simpl; lia | apply Hmax; lia].
  - apply (default_thread_count 0 ["mixed_load"]%string); [simpl; lia | apply Hmax; lia | reflexivity].
Defined.

(** C4 as stated fails when the host reports 0: the harness does not fall
    back to one Load Unit, it launches none. *)
Lemma host_reports_zero :
  ~ (1 <= length (launched (main 0 ["mixed_load"]%string)))%nat.
Proof. simpl. lia. Qed.

End Claims.

(** * Further properties of the code *)

Section IntegerPhaseMore.
Import x86_task.

Lemma rotate_injective (u v : Z) :
  UInt32.in_range u -> UInt32.in_range v -> rotate u = rotate v -> u = v.
Proof.
  intros Hu Hv Heq. apply Z.bits_inj'. intros n Hn.
  destruct (Z_lt_ge_dec n 32) as [Hlow | Hhigh].
  - assert (Hk : 0 <= (n + 3) mod 32 < 32) by (apply Z.mod_pos_bound; lia).
    assert (Hback : ((n + 3) mod 32 + 29) mod 32 = n).
    { rewrite Z.add_mod_idemp_l by lia.
      replace (n + 3 + 29) with (n + 1 * 32) by lia.
      rewrite Z.mod_add by lia. apply Z.mod_small. lia. }
    pose proof (rotate_testbit u _ Hu Hk) as Bu.
    pose proof (rotate_testbit v _ Hv Hk) as Bv.
    rewrite Hback in Bu, Bv. rewrite <- Bu, <- Bv, Heq. reflexivity.
  - rewrite (testbit_above u n), (testbit_above v n) by (auto; lia). reflexivity.
Qed.

Lemma xor_injective (u v w : Z) : UInt32.xor u w = UInt32.xor v w -> u = v.
Proof.
  unfold UInt32.xor. intros H.
  apply (f_equal (fun t => Z.lxor t w)) in H.
  now rewrite !Z.lxor_assoc, !Z.lxor_nilpotent, !Z.lxor_0_r in H.
Qed.

Lemma add_sub_injective (u v : Z) :
  UInt32.in_range u -> UInt32.in_range v ->
  UInt32.sub (UInt32.add u (UInt32.mul a b)) c = UInt32.sub (UInt32.add v (UInt32.mul a b)) c ->
  u = v.
Proof.
  unfold UInt32.in_range. rewrite modulus_val. intros Hu Hv.
  change (UInt32.mul a b) with 2. unfold UInt32.sub, UInt32.add, UInt32.wrap, c.
  rewrite modulus_val. intros H.
  Z.div_mod_to_equations. lia.
Qed.

(** X1. After every step of the integer phase the accumulator is a 32-bit
    value different from 0, whatever it was before the step; so it is after
    the whole phase. *)
Theorem int_accumulator_nonzero (r0 : Z) (k : nat) :
  (UInt32.in_range (int_at (S k) r0) /\ int_at (S k) r0 <> 0) /\
  (UInt32.in_range (int_phase r0) /\ int_phase r0 <> 0).
Proof.
  assert (Hstep : forall r, UInt32.in_range (int_step r) /\ int_step r <> 0).
  { intros r. split; [apply int_step_range |].
    unfold int_step, int_reset. destruct (Z.eqb_spec (int_arith r) 0) as [_ | Hne].
    - change int_seed_sum with 10. lia.
    - exact Hne. }
  split; [apply Hstep |].
  unfold int_phase.
  replace ITERATIONS with ((ITERATIONS - 1) + 1) by lia.
  rewrite for_loop_succ by (pose proof ITERATIONS_range; unfold ITERATIONS in *; lia).
  apply Hstep.
Qed.

(** X2. The arithmetic of one integer step (lines 20-23) is injective on
    32-bit values: two different accumulators never give the same value
    before the reset test. *)
Theorem int_arith_injective (r1 r2 : Z) :
  UInt32.in_range r1 -> UInt32.in_range r2 ->
  r1 <> r2 -> int_arith r1 <> int_arith r2.
Proof.
  intros H1 H2 Hne Heq. apply Hne. unfold int_arith in Heq.
  apply rotate_injective in Heq; try apply int_pre_rotate_range.
  apply xor_injective in Heq.
  now apply add_sub_injective in Heq.
Qed.

Lemma int_arith_injective_witness : int_arith 5 <> int_arith 6.
Proof.
  assert (Hr : forall v, 0 <= v < 8 -> UInt32.in_range v).
  { intros v Hv. unfold UInt32.in_range. rewrite modulus_val. lia. }
  apply (int_arith_injective 5 6); [apply Hr; lia | apply Hr; lia | lia].
Defined.

End IntegerPhaseMore.

Section FloatPhaseMore.
Import x86_task.

(** X3. Whatever [f_result] holds on entry, every step of the
    floating-point phase leaves the binary32 value [12416244 * 2^-22] (about
    2.96) in it and finds the test of line 36 false, so the reset of line 37
    is never executed; the phase as a whole leaves that same value. *)
Theorem float_phase_value (f : F32.float) (k : nat) :
  F32.gt (float_arith (float_at k f)) threshold = false /\
  float_at (S k) f = S754_finite false 12416244 (-22) /\
  float_phase f = S754_finite false 12416244 (-22).
Proof.
  split; [apply float_threshold_not_exceeded | split]; [apply float_step_value |].
  unfold float_phase.
  replace ITERATIONS with ((ITERATIONS - 1) + 1) by lia.
  rewrite for_loop_succ by (unfold ITERATIONS; lia).
  apply float_step_value.
Qed.

End FloatPhaseMore.

Section StoiMore.
Import std.

Lemma skip_spaces_prefix ws s :
  string_forall isspace ws = true -> skip_spaces (ws +:+ s) = skip_spaces s.
Proof.
  intros Hws. induction ws as [| ch ws IH]; simpl in *; [reflexivity |].
  apply andb_true_iff in Hws as [Hch Hws]. rewrite Hch. now apply IH.
Qed.

(** X5. White space before the number is not significant: an argument read
    with leading blanks, tabs or newlines gives what it gives without them,
    value or exception. *)
Theorem stoi_leading_space (ws str : string) :
  string_forall isspace ws = true -> stoi (ws +:+ str) = stoi str.
Proof.
  intros Hws. unfold stoi. now rewrite skip_spaces_prefix.
Qed.

Lemma stoi_leading_space_witness :
  stoi ("  " +:+ "8 cores") = stoi "8 cores".
Proof. apply stoi_leading_space. reflexivity. Defined.

(** A digit run after a minus sign. *)
Lemma stoi_minus ws ch ds rest :
  string_forall isspace ws = true ->
  isdigit ch = true -> string_forall isdigit ds = true ->
  starts_with isdigit rest = false ->
  stoi (ws +:+ "-" +:+ String ch ds +:+ rest)
  = if decimal 0 (String ch ds) <=? 2 ^ 31
    then inr (- decimal 0 (String ch ds))
    else inl out_of_range.
Proof.
  intros Hws Hch Hds Hrest.
  assert (Hnn : 0 <= decimal 0 (String ch ds)).
  { apply decimal_nonneg; [lia |]. simpl. now rewrite Hch, Hds. }
  rewrite stoi_leading_space by exact Hws. unfold stoi.
  change (skip_spaces ("-" +:+ String ch ds +:+ rest))
    with (String "-"%char (String ch ds +:+ rest)).
  cbn [take_sign]. rewrite take_digits_first by assumption.
  set (n := decimal 0 (String ch ds)) in *.
  assert (Hrange : (Int32.min_int <=? - n) && (- n <=? Int32.max_int) = (n <=? 2 ^ 31)).
  { destruct (Z.leb_spec Int32.min_int (- n)) as [H1 | H1];
      destruct (Z.leb_spec (- n) Int32.max_int) as [H2 | H2];
      destruct (Z.leb_spec n (2 ^ 31)) as [H3 | H3];
      try reflexivity;
      unfold Int32.min_int, Int32.max_int in *;
      change (2 ^ 31) with 2147483648 in *; lia. }
  now rewrite Hrange.
Qed.

End StoiMore.

Section HarnessMore.

(** X6. A negative count is accepted, not rejected: for an argument that
    is, after optional white space, a minus sign and a run of digits
    denoting [n <= 2^31] (followed by anything that does not start with a
    digit), the harness launches nothing and returns exit status 0. Below
    [-2^31] it is terminated by an uncaught [std::out_of_range]. *)
Theorem negative_argument (hw : Z) (prog ws : string) (ch : ascii) (ds rest : string) :
  std.string_forall std.isspace ws = true ->
  std.isdigit ch = true -> std.string_forall std.isdigit ds = true ->
  std.starts_with std.isdigit rest = false ->
  let n := std.decimal 0 (String ch ds) in
  let arg := ws +:+ "-" +:+ String ch ds +:+ rest in
  (n <= 2 ^ 31 -> main hw [prog; arg] = {| launched := []; ending := Exit 0 |}) /\
  (2 ^ 31 < n ->
     main hw [prog; arg] = {| launched := []; ending := Terminate std.out_of_range |}).
Proof.
  intros Hws Hch Hds Hrest n arg.
  pose proof (stoi_minus ws ch ds rest Hws Hch Hds Hrest) as Hstoi.
  fold n arg in Hstoi.
  assert (Hnn : 0 <= n).
  { apply decimal_nonneg; [lia |]. simpl. now rewrite Hch, Hds. }
  split; intros Hn.
  - destruct (Z.leb_spec n (2 ^ 31)) as [_ | Hbad]; [| lia].
    rewrite (main_count hw [prog; arg] (- n)) by (now rewrite num_threads_arg).
    replace (Z.to_nat (- n)) with 0%nat by lia.
    destruct (Z.ltb_spec 0 (- n)); [lia | reflexivity].
  - destruct (Z.leb_spec n (2 ^ 31)) as [Hbad | _]; [lia |].
    apply main_exception. now rewrite num_threads_arg.
Qed.

Lemma negative_argument_witness :
  main 8 ["mixed_load"; " -4x"]%string = {| launched := []; ending := Exit 0 |} /\
  main 8 ["mixed_load"; "-2147483649"]%string
  = {| launched := []; ending := Terminate std.out_of_range |}.
Proof.
  split.
  - destruct (negative_argument 8 "mixed_load" " " "4"%char "" "x"
                eq_refl eq_refl eq_refl eq_refl) as [Hsmall _].
    apply Hsmall. vm_compute. discriminate.
  - destruct (negative_argument 8 "mixed_load" "" "2"%char "147483649" ""
                eq_refl eq_refl eq_refl eq_refl) as [_ Hbig].
    apply Hbig. reflexivity.
Defined.

End HarnessMore.

Section MemoryPhaseMore.
Import x86_task.

Lemma int_double (j : Z) : 0 <= j < 2 ^ 30 -> Int32.mul j 2 = j * 2.
Proof.
  intros Hj. unfold Int32.mul, Int32.wrap.
  change (2 ^ 30) with 1073741824 in Hj.
  change (2 ^ 31) with 2147483648. change (2 ^ 32) with 4294967296.
  rewrite Z.mod_small by lia. lia.
Qed.

(** X8. The first pass of the memory phase erases whatever the buffer
    held: for a buffer of [M <= 2^30] elements its result is the list
    [0, 2, 4, ..., 2*(M-1)], of the same length. *)
Theorem write_pass_overwrites (M : Z) (array0 : list Z) :
  0 <= M <= 2 ^ 30 ->
  length array0 = Z.to_nat M ->
  write_pass M array0 = (fun j => j * 2) <$> seqZ 0 M.
Proof.
  intros HM Hlen.
  destruct (write_pass_written M array0) as (Hl & Hlow & _); [lia | exact Hlen |].
  apply list_eq. intros n.
  destruct (Nat.lt_ge_cases n (Z.to_nat M)) as [Hin | Hout].
  - rewrite list_lookup_fmap, lookup_seqZ_lt by lia. cbn [fmap option_fmap option_map].
    rewrite <- (Nat2Z.id n) at 1. apply load_lookup.
    + rewrite Nat2Z.id. lia.
    + rewrite Hlow by lia. rewrite int_double by lia. lia.
  - rewrite !lookup_ge_None_2; [reflexivity | |].
    + rewrite length_fmap, length_seqZ. lia.
    + lia.
Qed.

Lemma write_pass_overwrites_witness :
  write_pass 4 [9; 9; 9; 9] = (fun j => j * 2) <$> seqZ 0 4.
Proof. apply write_pass_overwrites; [lia | reflexivity]. Defined.

Lemma mem_phase_ext (M : Z) (arr1 arr2 : list Z) :
  0 <= M <= Int32.max_int ->
  length arr1 = Z.to_nat M -> length arr2 = Z.to_nat M ->
  mem_phase M arr1 = mem_phase M arr2.
Proof.
  intros HM H1 H2. apply list_eq. intros n.
  destruct (Nat.lt_ge_cases n (Z.to_nat M)) as [Hin | Hout].
  - rewrite <- (Nat2Z.id n).
    rewrite !mem_phase_load by (assumption || lia). reflexivity.
  - rewrite !lookup_ge_None_2; [reflexivity | |];
      rewrite mem_phase_length by assumption; lia.
Qed.

(** X9. The buffer the memory phase leaves does not depend on the buffer
    it finds: two buffers of the same size give the same result, and a
    second memory phase gives the result of the first again. Every round
    therefore ends with the same buffer contents. *)
Theorem mem_phase_independent (M : Z) (arr1 arr2 : list Z) :
  0 <= M <= Int32.max_int ->
  length arr1 = Z.to_nat M -> length arr2 = Z.to_nat M ->
  mem_phase M arr1 = mem_phase M arr2 /\
  mem_phase M (mem_phase M arr1) = mem_phase M arr1.
Proof.
  intros HM H1 H2. split.
  - now apply mem_phase_ext.
  - apply mem_phase_ext; [exact HM | | exact H1].
    now apply mem_phase_length.
Qed.

Lemma mem_phase_independent_witness :
  mem_phase 3 [5; 6; 7] = mem_phase 3 [0; 0; 0] /\
  mem_phase 3 (mem_phase 3 [5; 6; 7]) = mem_phase 3 [5; 6; 7].
Proof.
  apply mem_phase_independent; [unfold Int32.max_int; lia | reflexivity | reflexivity].
Defined.

(** X10. The index [(i + 1) % size] of line 46 never leaves the buffer:
    for [0 <= i < size] it is [i + 1], except at the last element, where it
    wraps to 0. *)
Theorem read_index_in_bounds (size i : Z) :
  0 <= i < size -> size <= Int32.max_int ->
  let j := Int32.rem (Int32.add i 1) size in
  0 <= j < size /\
  (i + 1 < size -> j = i + 1) /\
  (i + 1 = size -> j = 0).
Proof.
  intros Hi Hsize j. subst j. rewrite int_succ by lia. unfold Int32.rem.
  destruct (Z_lt_ge_dec (i + 1) size) as [Hin | Hlast].
  - rewrite Z.rem_small by lia. repeat split; lia.
  - assert (Heq : i + 1 = size) by lia. rewrite Heq, Z.rem_same by lia.
    repeat split; lia.
Qed.

Lemma read_index_in_bounds_witness :
  let j := Int32.rem (Int32.add 1048575 1) ARRAY_SIZE in
  0 <= j < ARRAY_SIZE /\
  (1048575 + 1 < ARRAY_SIZE -> j = 1048575 + 1) /\
  (1048575 + 1 = ARRAY_SIZE -> j = 0).
Proof.
  apply (read_index_in_bounds ARRAY_SIZE 1048575);
    unfold ARRAY_SIZE, Int32.max_int; lia.
Defined.

End MemoryPhaseMore.

Section ControlFlowMore.
Import x86_task.

Lemma entry_safe (array0 : list Z) : safe array0 (entry array0).
Proof.
  unfold safe, entry, running. cbn [pc i vars result f_result array counter_bound].
  split; [split; discriminate | split]; [reflexivity | split].
  - unfold UInt32.in_range. rewrite modulus_val. lia.
  - split; [now left | lia].
Qed.

Ltac safe_parts :=
  split; [split; discriminate | split; [| split; [| split]]];
  first [ assumption
        | apply int_step_range
        | now right
        | now rewrite length_store
        | lia ].

Lemma step_safe (array0 : list Z) (s : state) :
  safe array0 s -> exists s', step s = Some s' /\ safe array0 s'.
Proof.
  pose proof ITERATIONS_range as HI. pose proof ARRAY_SIZE_int as HA.
  destruct s as [l j [r f arr]].
  unfold safe, running. cbn [pc i vars result f_result array].
  intros ((Hd & Hr) & Hlen & Hres & Hf & Hj).
  destruct l; cbn [counter_bound] in Hj; try contradiction; unfold step; cbn [pc i].
  - (* line 17 *)
    unfold while_cond, goto. eexists. split; [reflexivity |].
    cbn [pc i vars result f_result array counter_bound]. safe_parts.
  - (* line 19 *)
    destruct (Z.ltb_spec j ITERATIONS) as [Hlt | Hge];
      unfold iterate, goto; eexists; (split; [reflexivity |]);
      cbn [pc i vars result f_result array counter_bound].
    + rewrite int_succ by lia. safe_parts.
    + safe_parts.
  - (* line 31 *)
    destruct (Z.ltb_spec j ITERATIONS) as [Hlt | Hge];
      unfold iterate, goto; eexists; (split; [reflexivity |]);
      cbn [pc i vars result f_result array counter_bound].
    + rewrite int_succ by lia. rewrite float_step_value. safe_parts.
    + safe_parts.
  - (* line 42 *)
    destruct (Z.ltb_spec j ARRAY_SIZE) as [Hlt | Hge];
      unfold iterate, goto; eexists; (split; [reflexivity |]);
      cbn [pc i vars result f_result array counter_bound].
    + rewrite int_succ by lia. unfold write_body. safe_parts.
    + safe_parts.
  - (* line 45 *)
    destruct (Z.ltb_spec j ARRAY_SIZE) as [Hlt | Hge];
      unfold iterate, goto; eexists; (split; [reflexivity |]);
      cbn [pc i vars result f_result array counter_bound].
    + rewrite int_succ by lia. unfold read_body. safe_parts.
    + safe_parts.
  - (* line 50 *)
    unfold goto. eexists. split; [reflexivity |].
    cbn [pc i vars result f_result array counter_bound]. safe_parts.
Qed.

Lemma run_safe (array0 : list Z) (n : nat) (s : state) :
  safe array0 s -> exists s', run n s = Some s' /\ safe array0 s'.
Proof.
  revert s. induction n as [| n IH]; intros s Hs; cbn [run].
  - now exists s.
  - destruct (step_safe array0 s Hs) as (s' & -> & Hs'). now apply IH.
Qed.

(** X11. An invariant of [x86_task]. After any number of transitions the
    routine is still running, the buffer has the length it was allocated
    with, [result] is a 32-bit value, [f_result] is 0.0 or
    [12416244 * 2^-22], and the loop counter lies between 0 and the bound
    of the loop it belongs to. So, for a buffer of [ARRAY_SIZE] elements,
    both indices used by an iteration of lines 43 and 46 are inside the
    buffer. *)
Theorem reachable_states_safe (array0 : list Z) (n : nat) :
  exists s,
    run n (entry array0) = Some s /\
    safe array0 s /\
    (length array0 = Z.to_nat ARRAY_SIZE ->
     pc s = at_write_for \/ pc s = at_read_for ->
     i s < ARRAY_SIZE ->
     (Z.to_nat (i s) < length (array (vars s)))%nat /\
     (Z.to_nat (Int32.rem (Int32.add (i s) 1) ARRAY_SIZE) < length (array (vars s)))%nat).
Proof.
  destruct (run_safe array0 n (entry array0) (entry_safe array0)) as (s & Hrun & Hsafe).
  exists s. split; [exact Hrun | split]; [exact Hsafe |].
  destruct Hsafe as (_ & Hlen & _ & _ & Hi).
  intros Hsize Hpc Hlt. rewrite Hlen, Hsize.
  pose proof ARRAY_SIZE_int as HA.
  assert (Hidx : 0 <= Int32.rem (Int32.add (i s) 1) ARRAY_SIZE < ARRAY_SIZE).
  { rewrite int_succ by lia. unfold Int32.rem.
    destruct (Z_lt_ge_dec (i s + 1) ARRAY_SIZE) as [Hin | Hlast].
    - rewrite Z.rem_small by lia. lia.
    - replace (i s + 1) with ARRAY_SIZE by lia. rewrite Z.rem_same by lia. lia. }
  revert Hidx Hlt Hi HA. generalize (Int32.rem (Int32.add (i s) 1) ARRAY_SIZE).
  generalize (i s). generalize ARRAY_SIZE. intros size j k Hidx Hlt Hi HA. lia.
Qed.

Ltac leave_loop :=
  rewrite run_one; unfold step at 1; cbn [pc i];
  rewrite ?Z.ltb_irrefl; unfold while_cond, goto; cbn [pc i vars result f_result array].

Lemma int_segment j v :
  run (1 + (Z.to_nat ITERATIONS + 1)) {| pc := at_while; i := j; vars := v |}
  = Some {| pc := at_float_for; i := 0;
            vars := {| result := int_phase (result v);
                       f_result := f_result v; array := array v |} |}.
Proof.
  rewrite run_add. leave_loop.
  rewrite run_add, int_for_run. leave_loop. reflexivity.
Qed.

Lemma float_segment v :
  run (Z.to_nat ITERATIONS + 1) {| pc := at_float_for; i := 0; vars := v |}
  = Some {| pc := at_write_for; i := 0;
            vars := {| result := result v;
                       f_result := float_phase (f_result v); array := array v |} |}.
Proof. rewrite run_add, float_for_run. leave_loop. reflexivity. Qed.

Lemma write_segment v :
  run (Z.to_nat ARRAY_SIZE + 1) {| pc := at_write_for; i := 0; vars := v |}
  = Some {| pc := at_read_for; i := 0;
            vars := {| result := result v; f_result := f_result v;
                       array := write_pass ARRAY_SIZE (array v) |} |}.
Proof. rewrite run_add, write_for_run. leave_loop. reflexivity. Qed.

Lemma read_segment v :
  run (Z.to_nat ARRAY_SIZE + 1) {| pc := at_read_for; i := 0; vars := v |}
  = Some {| pc := at_sleep; i := 0;
            vars := {| result := result v; f_result := f_result v;
                       array := read_pass ARRAY_SIZE (array v) |} |}.
Proof. rewrite run_add, read_for_run. leave_loop. reflexivity. Qed.

Lemma checkpoint_sums :
  Z.to_nat (ITERATIONS + 2) = (1 + (Z.to_nat ITERATIONS + 1))%nat /\
  Z.to_nat (2 * ITERATIONS + 3)
  = (1 + (Z.to_nat ITERATIONS + 1) + (Z.to_nat ITERATIONS + 1))%nat /\
  Z.to_nat (2 * ITERATIONS + ARRAY_SIZE + 4)
  = (1 + (Z.to_nat ITERATIONS + 1) + (Z.to_nat ITERATIONS + 1)
     + (Z.to_nat ARRAY_SIZE + 1))%nat /\
  Z.to_nat (2 * ITERATIONS + 2 * ARRAY_SIZE + 5)
  = (1 + (Z.to_nat ITERATIONS + 1) + (Z.to_nat ITERATIONS + 1)
     + (Z.to_nat ARRAY_SIZE + 1) + (Z.to_nat ARRAY_SIZE + 1))%nat.
Proof.
  assert (HI : 0 <= ITERATIONS) by apply ITERATIONS_range.
  assert (HA : 0 <= ARRAY_SIZE) by apply ARRAY_SIZE_int.
  revert HI HA. generalize ITERATIONS ARRAY_SIZE. intros n m Hn Hm. lia.
Qed.

(** X12. The order of the phases within a round. From line 17 the routine
    reaches line 31 when the integer phase is complete and nothing else has
    changed, line 42 when the floating-point phase is complete as well,
    line 45 when the whole buffer has been written, and the pause of line 50
    with the variables of the finished round; each loop runs its full
    count of iterations before the next one starts. *)
Theorem round_phases (j : Z) (v : locals) :
  let s := {| pc := at_while; i := j; vars := v |} in
  run (Z.to_nat (ITERATIONS + 2)) s
  = Some {| pc := at_float_for; i := 0;
            vars := {| result := int_phase (result v);
                       f_result := f_result v; array := array v |} |} /\
  run (Z.to_nat (2 * ITERATIONS + 3)) s
  = Some {| pc := at_write_for; i := 0;
            vars := {| result := int_phase (result v);
                       f_result := float_phase (f_result v); array := array v |} |} /\
  run (Z.to_nat (2 * ITERATIONS + ARRAY_SIZE + 4)) s
  = Some {| pc := at_read_for; i := 0;
            vars := {| result := int_phase (result v);
                       f_result := float_phase (f_result v);
                       array := write_pass ARRAY_SIZE (array v) |} |} /\
  run (Z.to_nat (2 * ITERATIONS + 2 * ARRAY_SIZE + 5)) s
  = Some {| pc := at_sleep; i := 0; vars := round v |}.
Proof.
  intros s. subst s.
  destruct checkpoint_sums as (E1 & E2 & E3 & E4). rewrite E1, E2, E3, E4.
  split; [apply int_segment | split; [| split]].
  - rewrite run_add, int_segment, float_segment. reflexivity.
  - rewrite run_add, run_add, int_segment, float_segment, write_segment. reflexivity.
  - rewrite run_add, run_add, run_add, int_segment, float_segment, write_segment,
      read_segment.
    unfold round, mem_phase. reflexivity.
Qed.

End ControlFlowMore.

Section RoundsMore.
Import x86_task.

(** X13. The reset of line 26 is executed in a step exactly when the
    accumulator holds 5 at the beginning of that step: 5 is the only 32-bit
    value the arithmetic of lines 20-23 sends to 0. *)
Theorem int_reset_exactly_from_5 (r : Z) :
  UInt32.in_range r ->
  (int_arith r = 0 <-> r = 5) /\
  (r <> 5 -> int_step r = int_arith r) /\
  (r = 5 -> int_step r = 10).
Proof.
  intros Hr. pose proof (int_arith_zero_iff r Hr) as H5.
  split; [exact H5 | split].
  - intros Hne. unfold int_step, int_reset.
    destruct (Z.eqb_spec (int_arith r) 0) as [H0 | _]; [| reflexivity].
    apply H5 in H0. contradiction.
  - intros ->. reflexivity.
Qed.

Lemma int_reset_exactly_from_5_witness :
  (int_arith 5 = 0 <-> 5 = 5) /\
  (5 <> 5 -> int_step 5 = int_arith 5) /\
  (5 = 5 -> int_step 5 = 10).
Proof.
  apply (int_reset_exactly_from_5 5).
  unfold UInt32.in_range. rewrite modulus_val. lia.
Defined.

Lemma rounds_float_array (k : nat) (v : locals) :
  length (array v) = Z.to_nat ARRAY_SIZE ->
  f_result (Nat.iter (S k) round v) = S754_finite false 12416244 (-22) /\
  array (Nat.iter (S k) round v) = mem_phase ARRAY_SIZE (array v).
Proof.
  intros Hlen. pose proof ARRAY_SIZE_int as HA.
  induction k as [| k [IHf IHa]].
  - rewrite Nat.iter_succ. unfold Nat.iter at 1, nat_rect. unfold round.
    cbn [f_result array]. split; [| reflexivity].
    pose proof (float_step_value F32.zero) as _.
    unfold float_phase.
    replace ITERATIONS with ((ITERATIONS - 1) + 1) by lia.
    rewrite for_loop_succ by (unfold ITERATIONS; lia).
    apply float_step_value.
  - rewrite Nat.iter_succ. set (w := Nat.iter (S k) round v) in *.
    unfold round. cbn [f_result array]. split.
    + unfold float_phase.
      replace ITERATIONS with ((ITERATIONS - 1) + 1) by lia.
      rewrite for_loop_succ by (unfold ITERATIONS; lia).
      apply float_step_value.
    + rewrite IHa. apply mem_phase_ext; [exact HA | | exact Hlen].
      now apply mem_phase_length.
Qed.

(** X14. Only the integer accumulator carries anything from one round to
    the next. After one round or more, started with a buffer of
    [ARRAY_SIZE] elements, [f_result] and the buffer are what the first
    round left, whatever number of rounds has run, and [result] is the
    integer phase applied once per round. *)
Theorem rounds_carry_only_result (k : nat) (v : locals) :
  length (array v) = Z.to_nat ARRAY_SIZE ->
  f_result (Nat.iter (S k) round v) = f_result (round v) /\
  array (Nat.iter (S k) round v) = array (round v) /\
  result (Nat.iter (S k) round v) = Nat.iter (S k) int_phase (result v).
Proof.
  intros Hlen.
  destruct (rounds_float_array k v Hlen) as [Hf Ha].
  destruct (rounds_float_array 0 v Hlen) as [Hf0 Ha0].
  change (Nat.iter 1 round v) with (round v) in Hf0, Ha0.
  split; [rewrite Hf, Hf0; reflexivity | split]; [rewrite Ha, Ha0; reflexivity |].
  clear. generalize (S k) as n. intros n. induction n as [| n IH].
  - unfold Nat.iter, nat_rect. reflexivity.
  - rewrite (Nat.iter_succ n round), (Nat.iter_succ n int_phase).
    rewrite <- IH. unfold round at 1. cbn [result]. reflexivity.
Qed.

Lemma rounds_carry_only_result_witness :
  let v := {| result := 0; f_result := F32.zero;
              array := replicate (Z.to_nat ARRAY_SIZE) 0 |} in
  f_result (Nat.iter 3 round v) = f_result (round v) /\
  array (Nat.iter 3 round v) = array (round v) /\
  result (Nat.iter 3 round v) = Nat.iter 3 int_phase (result v).
Proof.
  intros v. apply (rounds_carry_only_result 2 v). apply length_replicate.
Defined.

End RoundsMore.

Section StoiExceptions.
Import std.

Lemma take_digits_some s acc : exists m, take_digits s (Some acc) = Some m.
Proof.
  revert acc. induction s as [| ch s IH]; intros acc; simpl.
  - now exists acc.
  - destruct (isdigit ch); [apply IH | now exists acc].
Qed.

(** X15. [std::invalid_argument] is raised exactly for the arguments in
    which no digit follows the optional white space and sign; every other
    argument is read as a number, or rejected as out of range. *)
Theorem invalid_argument_iff (str : string) :
  stoi str = inl invalid_argument <->
  starts_with isdigit (snd (take_sign (skip_spaces str))) = false.
Proof.
  split; [| apply stoi_no_digit].
  unfold stoi. destruct (take_sign (skip_spaces str)) as [negative digits].
  cbn [snd]. destruct digits as [| ch digits]; [reflexivity |].
  cbn [starts_with take_digits]. destruct (isdigit ch); [| reflexivity].
  destruct (take_digits_some digits (10 * default 0 None + digit_value ch)) as [m ->].
  destruct ((Int32.min_int <=? (if negative then - m else m))
            && ((if negative then - m else m) <=? Int32.max_int)); discriminate.
Qed.

End StoiExceptions.
